(** * git-log: commits grouped by Jira code and merged with tracker metadata

    A shallow embedding of [src/helpers.js], [src/commands.js] and
    [src/formatters.js].  JavaScript strings are sequences of code units; the
    pattern [/\w+-\d+/] only ever inspects the ASCII classes, so a string is a
    [String.string] and every code unit outside the classes behaves like any
    other non-word character.  Dates are the millisecond time stamps that
    [b.date - a.date] compares.  Promises are modelled by the state they
    reach, and the order in which concurrent lookups settle by the time of
    arrival of each response. *)

From Stdlib Require Import List String Ascii ZArith Arith Bool Lia.
From Stdlib Require Import Permutation Sorted DecimalString.
Import ListNotations.
Local Open Scope list_scope.

(** ** Strings *)

Module JsString.

Definition in_range (lo hi : nat) (c : ascii) : bool :=
  let n := nat_of_ascii c in (lo <=? n) && (n <=? hi).

(** [\d] is [0-9]. *)
Definition is_digit (c : ascii) : bool := in_range 48 57 c.

(** [\w] is [A-Za-z0-9_]. *)
Definition is_word (c : ascii) : bool :=
  in_range 65 90 c || in_range 97 122 c || is_digit c
  || (nat_of_ascii c =? 95).

Definition upper_char (c : ascii) : ascii :=
  if in_range 97 122 c then ascii_of_nat (nat_of_ascii c - 32) else c.

(** [String.prototype.toUpperCase], on the code units a match of the
    pattern can hold (ASCII letters, digits, underscore, hyphen). *)
Fixpoint toUpperCase (s : string) : string :=
  match s with
  | EmptyString => EmptyString
  | String c s' => String (upper_char c) (toUpperCase s')
  end.

Fixpoint drop (n : nat) (s : string) : string :=
  match n, s with
  | S n', String _ s' => drop n' s'
  | _, _ => s
  end.

Fixpoint take (n : nat) (s : string) : string :=
  match n, s with
  | S n', String c s' => String c (take n' s')
  | _, _ => EmptyString
  end.

(** [s.substring(i, e)] for [i <= e]. *)
Definition slice (i e : nat) (s : string) : string := take (e - i) (drop i s).

Fixpoint all (p : ascii -> bool) (s : string) : bool :=
  match s with
  | EmptyString => true
  | String c s' => p c && all p s'
  end.

(** The length of the longest prefix whose code units are in a class. *)
Fixpoint span (cls : ascii -> bool) (s : string) : nat :=
  match s with
  | String c s' => if cls c then S (span cls s') else 0
  | EmptyString => 0
  end.

End JsString.

(** ** Regular expressions: the literal [/\w+-\d+/g] *)

Module RegExp.
Import JsString.

(** The patterns the program needs: a sequence of atoms, each one code unit
    of a class or a greedy repetition [cls+]. *)
Inductive CharClass : Type :=
| Word
| Digit
| Literal (c : ascii).

Inductive Atom : Type :=
| One (cls : CharClass)
| Plus (cls : CharClass).

Definition Pattern := list Atom.

Definition in_class (cls : CharClass) (c : ascii) : bool :=
  match cls with
  | Word => is_word c
  | Digit => is_digit c
  | Literal c' => Ascii.eqb c c'
  end.

(** A backtracking matcher in continuation style.  A matcher takes the text
    at the current position and returns the number of code units it and its
    continuation consume, or [None] when every alternative fails. *)
Definition Matcher := string -> option nat.

Definition accept : Matcher := fun _ => Some 0.

(** One code unit of a class, then the continuation. *)
Definition one (cls : ascii -> bool) (k : Matcher) : Matcher :=
  fun s =>
    match s with
    | String c s' => if cls c then option_map S (k s') else None
    | EmptyString => None
    end.

(** [cls+], greedy: after one code unit of the class, first try to take
    another one, and fall back to the continuation when that fails. *)
Fixpoint plus (cls : ascii -> bool) (k : Matcher) (s : string) : option nat :=
  match s with
  | String c s' =>
      if cls c then
        match plus cls k s' with
        | Some n => Some (S n)
        | None => option_map S (k s')
        end
      else None
  | EmptyString => None
  end.

Fixpoint matcher (p : Pattern) : Matcher :=
  match p with
  | [] => accept
  | One cls :: p' => one (in_class cls) (matcher p')
  | Plus cls :: p' => plus (in_class cls) (matcher p')
  end.

(** [\w+-\d+] *)
Definition jira_pattern : Pattern := [Plus Word; One (Literal "-"); Plus Digit].

(** A RegExp object with the global flag: its pattern and its one mutable
    slot. *)
Record t := { source : Pattern; lastIndex : nat }.

(** Evaluating a regular expression literal creates a new object whose
    [lastIndex] is 0. *)
Definition literal (p : Pattern) : t := {| source := p; lastIndex := 0 |}.

Definition set_lastIndex (R : t) (i : nat) : t :=
  {| source := source R; lastIndex := i |}.

(** The scan of RegExpBuiltinExec for a non-sticky pattern: try the matcher
    at index [i], then at [i + 1], ..., up to and including the end of the
    text.  The result is the start and the end index of the match. *)
Fixpoint scan (m : Matcher) (s : string) (i : nat) : option (nat * nat) :=
  match m s with
  | Some n => Some (i, i + n)
  | None =>
      match s with
      | EmptyString => None
      | String _ s' => scan m s' (S i)
      end
  end.

(** RegExpBuiltinExec with the global flag set: the search starts at
    [lastIndex]; a match moves [lastIndex] to its end, a failure resets it
    to 0. *)
Definition exec (R : t) (S : string) : option (nat * nat) * t :=
  if String.length S <? lastIndex R then (None, set_lastIndex R 0)
  else
    match scan (matcher (source R)) (drop (lastIndex R) S) (lastIndex R) with
    | Some (i, e) => (Some (i, e), set_lastIndex R e)
    | None => (None, set_lastIndex R 0)
    end.

(** [RegExp.prototype.test] *)
Definition test (R : t) (S : string) : bool * t :=
  match exec R S with
  | (Some _, R') => (true, R')
  | (None, R') => (false, R')
  end.

(** The loop of [String.prototype.match] for a global pattern: exec until it
    fails, collecting the matched texts.  An empty match advances
    [lastIndex] by one. *)
Fixpoint match_loop (fuel : nat) (R : t) (S : string) : list string :=
  match fuel with
  | O => []
  | Datatypes.S fuel' =>
      match exec R S with
      | (None, _) => []
      | (Some (i, e), R') =>
          let R'' := if e =? i then set_lastIndex R' (Datatypes.S e) else R' in
          slice i e S :: match_loop fuel' R'' S
      end
  end.

(** [S.match(R)] for a global [R]: [lastIndex] is first set to 0; the result
    is [null] when there is no match at all.  Every round of the loop moves
    [lastIndex] forward, so [length S + 1] rounds exhaust the text (lemma
    [match_loop_fuel] below). *)
Definition String_match (S : string) (R : t) : option (list string) :=
  match match_loop (Datatypes.S (String.length S)) (set_lastIndex R 0) S with
  | [] => None
  | l => Some l
  end.

End RegExp.

(** ** Arrays, sets and objects *)

Module Js.

(** [Array.prototype.sort] with a comparator.  The sort is stable (ES2019,
    and V8 since 7.0), which fixes its result for a consistent comparator:
    an element moves behind another one only when the comparator is
    positive. *)
Fixpoint sort_insert {A} (cmp : A -> A -> Z) (x : A) (l : list A) : list A :=
  match l with
  | [] => [x]
  | y :: l' => if (0 <? cmp x y)%Z then y :: sort_insert cmp x l' else x :: l
  end.

Fixpoint Array_sort {A} (cmp : A -> A -> Z) (l : list A) : list A :=
  match l with
  | [] => []
  | x :: l' => sort_insert cmp x (Array_sort cmp l')
  end.

(** [Array.prototype.join] on an array of strings. *)
Fixpoint Array_join (sep : string) (l : list string) : string :=
  match l with
  | [] => EmptyString
  | [x] => x
  | x :: l' => (x ++ sep ++ Array_join sep l')%string
  end.

(** A [Set] of strings is the list of its elements in insertion order. *)
Definition Set_add (s : list string) (x : string) : list string :=
  if existsb (String.eqb x) s then s else s ++ [x].

(** [new Set(iterable)] adds the elements one after the other;
    [[...set]] lists them in insertion order. *)
Definition Set_from (l : list string) : list string := fold_left Set_add l [].

(** An ordinary object whose property names are not array indices: its own
    properties in creation order, which is the order of [Object.keys]. *)
Definition Object (V : Type) := list (string * V).

Fixpoint Object_get {V} (o : Object V) (k : string) : option V :=
  match o with
  | [] => None
  | (k', v) :: o' => if String.eqb k k' then Some v else Object_get o' k
  end.

(** [o[k] = v]: an existing property keeps its place, a new one is created
    last. *)
Fixpoint Object_set {V} (o : Object V) (k : string) (v : V) : Object V :=
  match o with
  | [] => [(k, v)]
  | (k', v') :: o' =>
      if String.eqb k k' then (k', v) :: o' else (k', v') :: Object_set o' k v
  end.

Definition Object_keys {V} (o : Object V) : list string := map fst o.

End Js.

(** ** The heap of RegExp objects *)

(** The only objects of the program whose state outlives a call are RegExp
    objects.  A computation threads the heap that holds them; an address is
    an index into the heap. *)
Definition Heap := list RegExp.t.

Definition M (A : Type) : Type := Heap -> A * Heap.

Definition ret {A} (a : A) : M A := fun h => (a, h).

Definition bind {A B} (c : M A) (f : A -> M B) : M B :=
  fun h => let (a, h') := c h in f a h'.

Notation "x <- c ;; k" := (bind c (fun x => k))
  (at level 61, c at next level, right associativity).

Fixpoint heap_update (h : Heap) (r : nat) (R : RegExp.t) : Heap :=
  match h, r with
  | [], _ => []
  | _ :: h', O => R :: h'
  | R0 :: h', S r' => R0 :: heap_update h' r' R
  end.

(** A regular expression literal: a new object at a new address. *)
Definition new_RegExp (p : RegExp.Pattern) : M nat :=
  fun h => (List.length h, h ++ [RegExp.literal p]).

(** [regex.test(s)] reads and writes the object behind the reference. *)
Definition RegExp_test (r : nat) (s : string) : M bool :=
  fun h =>
    match nth_error h r with
    | Some R => let (b, R') := RegExp.test R s in (b, heap_update h r R')
    | None => (false, h)
    end.

(** [s.match(regex)] with a global [regex] sets [lastIndex] to 0 before its
    loop and leaves it at 0 after the failing exec that ends the loop. *)
Definition String_match (s : string) (r : nat) : M (option (list string)) :=
  fun h =>
    match nth_error h r with
    | Some R =>
        (RegExp.String_match s R, heap_update h r (RegExp.set_lastIndex R 0))
    | None => (None, h)
    end.

(** [Array.prototype.filter] with a callback that has effects: the callback
    runs on the elements from first to last. *)
Fixpoint Array_filter {A} (f : A -> M bool) (l : list A) : M (list A) :=
  match l with
  | [] => ret []
  | x :: l' =>
      keep <- f x ;;
      rest <- Array_filter f l' ;;
      ret (if keep then x :: rest else rest)
  end.

(** [Array.prototype.forEach] with a callback that has effects and updates
    an accumulator. *)
Fixpoint Array_forEach {A S} (f : S -> A -> M S) (l : list A) (acc : S) : M S :=
  match l with
  | [] => ret acc
  | x :: l' => acc' <- f acc x ;; Array_forEach f l' acc'
  end.

(** ** helpers.js: the Code Extractor *)

(** A commit as [getCommitsUntil] builds it; [date] is the value of the
    moment object, in milliseconds. *)
Record Commit := { date : Z; author : string; summary : string }.

(** The mapping of Jira codes to commits.  A code holds a hyphen, so it is
    neither an array index nor the name of an inherited property. *)
Definition JiraMap := Js.Object (list Commit).

(** The body of the inner [forEach] of [mapCommitsToJiras]. *)
Definition add_jira (commit : Commit) (jiraMap : JiraMap) (jira : string)
  : JiraMap :=
  let code := JsString.toUpperCase jira in
  let jiraMap :=
    match Js.Object_get jiraMap code with
    | None => Js.Object_set jiraMap code []
    | Some _ => jiraMap
    end in
  match Js.Object_get jiraMap code with
  | Some group => Js.Object_set jiraMap code (group ++ [commit])
  | None => jiraMap
  end.

(** The body of the outer [forEach]: the literal [/\w+-\d+/g] is evaluated
    anew for every commit. *)
Definition add_commit (jiraMap : JiraMap) (commit : Commit) : M JiraMap :=
  regex <- new_RegExp RegExp.jira_pattern ;;
  jiras <- String_match (summary commit) regex ;;
  ret match jiras with
      | Some jiras => fold_left (add_jira commit) jiras jiraMap
      | None => jiraMap
      end.

Definition mapCommitsToJiras (commits : list Commit) : M JiraMap :=
  Array_forEach add_commit commits [].

Definition filterMissingJiras (commits : list Commit) : M (list Commit) :=
  regex <- new_RegExp RegExp.jira_pattern ;;
  Array_filter (fun commit => RegExp_test regex (summary commit)) commits.

(** The extraction and grouping steps of [listJira], one after the other. *)
Definition extract_and_group (commits : list Commit) : M JiraMap :=
  commits <- filterMissingJiras commits ;;
  mapCommitsToJiras commits.

(** [String.prototype.split] with a non-empty separator: [skip] counts the
    code units of a separator still to pass over, [cur] is the piece being
    read. *)
Fixpoint split_from (sep s : string) (skip : nat) (cur : string) : list string :=
  match s with
  | EmptyString => [cur]
  | String c s' =>
      match skip with
      | S skip' => split_from sep s' skip' cur
      | O =>
          if String.prefix sep s
          then cur :: split_from sep s' (String.length sep - 1) EmptyString
          else split_from sep s' 0 (cur ++ String c EmptyString)%string
      end
  end.

Definition String_split (s sep : string) : list string :=
  split_from sep s 0 EmptyString.

(** ** Errors, completions and promises *)

Record Error := { name : string; message : string }.

Definition TypeError (msg : string) : Error :=
  {| name := "TypeError"; message := msg |}.

(** The outcome of evaluating an expression or calling a function. *)
Inductive Completion (A : Type) : Type :=
| Normal (a : A)
| Throw (e : Error).
Arguments Normal {A} a.
Arguments Throw {A} e.

Definition Completion_bind {A B} (c : Completion A) (f : A -> Completion B)
  : Completion B :=
  match c with
  | Normal a => f a
  | Throw e => Throw e
  end.

Notation "'let!' x ':=' c 'in' k" := (Completion_bind c (fun x => k))
  (at level 10, x name, c at level 100, k at level 200).

(** How a request to an external collaborator ends. *)
Inductive Settled (A : Type) : Type :=
| Resolves (a : A)
| Rejects (e : Error).
Arguments Resolves {A} a.
Arguments Rejects {A} e.

(** The state a promise reaches; [Pending] is a promise that never settles. *)
Inductive Promise (A : Type) : Type :=
| Fulfilled (a : A)
| Rejected (e : Error)
| Pending.
Arguments Fulfilled {A} a.
Arguments Rejected {A} e.
Arguments Pending {A}.

Definition Promise_of {A} (s : Settled A) : Promise A :=
  match s with
  | Resolves a => Fulfilled a
  | Rejects e => Rejected e
  end.

(** [p.then(f)]: a callback that throws rejects the new promise. *)
Definition Promise_then {A B} (p : Promise A) (f : A -> Completion B)
  : Promise B :=
  match p with
  | Fulfilled a =>
      match f a with
      | Normal b => Fulfilled b
      | Throw e => Rejected e
      end
  | Rejected e => Rejected e
  | Pending => Pending
  end.

(** [p.then(f)] for a callback that returns a promise. *)
Definition Promise_then_promise {A B} (p : Promise A) (f : A -> Promise B)
  : Promise B :=
  match p with
  | Fulfilled a => f a
  | Rejected e => Rejected e
  | Pending => Pending
  end.

(** [p.catch(f)] *)
Definition Promise_catch {A} (p : Promise A) (f : Error -> Completion A)
  : Promise A :=
  match p with
  | Fulfilled a => Fulfilled a
  | Rejected e =>
      match f e with
      | Normal a => Fulfilled a
      | Throw e' => Rejected e'
      end
  | Pending => Pending
  end.

(** ** Values of a tracker response *)

(** A response is parsed JSON.  The program never computes with a number of
    a response: it only converts one to a string or to a boolean. *)
Class JsNumber (Number : Type) : Type := {
  Number_toString : Number -> string;
  Number_toBoolean : Number -> bool
}.

Section Pipeline.

Context {Number : Type} {Number_ops : JsNumber Number}.

#[warnings="-register-all"]
Inductive JsValue : Type :=
| JUndefined
| JNull
| JBoolean (b : bool)
| JNumber (n : Number)
| JString (s : string)
| JArray (elements : list JsValue)
| JObject (properties : list (string * JsValue)).

(** [v.p] for the property names the program reads ([fields], [summary],
    [status], [name], [fixVersions], [assignee], [displayName]): none of
    them is inherited from a prototype, so only an object has one. *)
Definition Get (v : JsValue) (p : string) : Completion JsValue :=
  match v with
  | JUndefined | JNull =>
      Throw (TypeError ("Cannot read properties of null or undefined, reading " ++ p))
  | JObject properties =>
      match Js.Object_get properties p with
      | Some x => Normal x
      | None => Normal JUndefined
      end
  | _ => Normal JUndefined
  end.

Definition ToBoolean (v : JsValue) : bool :=
  match v with
  | JUndefined | JNull => false
  | JBoolean b => b
  | JNumber n => Number_toBoolean n
  | JString s => negb (String.eqb s EmptyString)
  | JArray _ | JObject _ => true
  end.

(** [ToString]: an array joins its elements with a comma, [null] and
    [undefined] elements as the empty string; an object of a response is
    ["[object Object]"] unless it has a property [toString] of its own,
    which is not callable. *)
Fixpoint ToString (v : JsValue) : Completion string :=
  match v with
  | JUndefined => Normal "undefined"
  | JNull => Normal "null"
  | JBoolean b => Normal (if b then "true" else "false")
  | JNumber n => Normal (Number_toString n)
  | JString s => Normal s
  | JArray elements =>
      (fix join (l : list JsValue) : Completion string :=
         match l with
         | [] => Normal EmptyString
         | x :: l' =>
             let! s :=
               match x with
               | JUndefined | JNull => Normal EmptyString
               | _ => ToString x
               end in
             match l' with
             | [] => Normal s
             | _ => let! r := join l' in Normal (s ++ "," ++ r)
             end
         end) elements
  | JObject properties =>
      match Js.Object_get properties "toString" with
      | Some _ => Throw (TypeError "Cannot convert object to primitive value")
      | None => Normal "[object Object]"
      end
  end%string.

(** [Array.prototype.join] on an array of values. *)
Fixpoint Array_join_values (sep : string) (l : list JsValue)
  : Completion string :=
  match l with
  | [] => Normal EmptyString
  | x :: l' =>
      let! s :=
        match x with
        | JUndefined | JNull => Normal EmptyString
        | _ => ToString x
        end in
      match l' with
      | [] => Normal s
      | _ => let! r := Array_join_values sep l' in Normal (s ++ sep ++ r)
      end
  end%string.

(** [Array.prototype.map] with a callback that can throw. *)
Fixpoint Array_map {A B} (f : A -> Completion B) (l : list A)
  : Completion (list B) :=
  match l with
  | [] => Normal []
  | x :: l' =>
      let! y := f x in
      let! ys := Array_map f l' in
      Normal (y :: ys)
  end.

(** [v.map(f)]: only an array has a callable [map]. *)
Definition Call_map (v : JsValue) (f : JsValue -> Completion JsValue)
  : Completion (list JsValue) :=
  match v with
  | JArray elements => Array_map f elements
  | JUndefined | JNull =>
      Throw (TypeError "Cannot read properties of null or undefined, reading map")
  | _ => Throw (TypeError "map is not a function")
  end.

(** ** helpers.js: the Metadata Fetcher *)

(** The tracker client: how the lookup of a code settles, and when.  The
    requests of one aggregation are all sent before any response arrives;
    [arrival code] is the time at which the lookup of [code] settles. *)
Record Client := {
  findIssue : string -> Settled JsValue;
  arrival : string -> nat
}.

Record IssueMetadata := {
  title : JsValue;
  status : JsValue;
  fixVersions : string;
  assignee : JsValue
}.

(** [issue.fields.p] *)
Definition issue_field (issue : JsValue) (p : string) : Completion JsValue :=
  let! fields := Get issue "fields" in
  Get fields p.

(** The callback of [findIssue(code).then]. *)
Definition read_issue (issue : JsValue) : Completion IssueMetadata :=
  let! title := issue_field issue "summary" in
  let! status := issue_field issue "status" in
  let! status := Get status "name" in
  let! versions := issue_field issue "fixVersions" in
  let! names := Call_map versions (fun fv => Get fv "name") in
  let! joined := Array_join_values ", " names in
  let fixVersions :=
    if String.eqb joined EmptyString then "No Fix Version"%string else joined in
  let! assignee := issue_field issue "assignee" in
  let! assignee :=
    if ToBoolean assignee
    then let! assignee := issue_field issue "assignee" in
         Get assignee "displayName"
    else Normal (JString "Unassigned") in
  Normal {| title := title; status := status;
            fixVersions := fixVersions; assignee := assignee |}.

(** [None] is [null]. *)
Definition fetchJiraMetadata (code : string) (client : Client)
  : Promise (option IssueMetadata) :=
  Promise_catch
    (Promise_then (Promise_of (findIssue client code))
       (fun issue => let! jira := read_issue issue in Normal (Some jira)))
    (fun _ => Normal None).

(** ** helpers.js: the Aggregator *)

(** The fields of [...jira] are those of [IssueMetadata]; none of them
    replaces one of the four fields written before the spread. *)
Record IssueRecord := {
  code : string;
  lastCommitDate : Z;
  developers : string;
  commits : nat;
  jira : IssueMetadata
}.

(** [(a, b) => b.date - a.date] *)
Definition by_date_descending (a b : Commit) : Z := (date b - date a)%Z.

(** The callback of [fetchJiraMetadata(code, client).then], on the list
    [jiraList] it pushes to.  [sort] sorts the group in place, so the authors
    and the length are read from the sorted group. *)
Definition push_jira (jiraMap : JiraMap) (code : string)
  (jira : option IssueMetadata) (jiraList : list IssueRecord)
  : Completion (list IssueRecord) :=
  match jira with
  | Some jira =>
      match Js.Object_get jiraMap code with
      | Some commitList =>
          let commitList := Js.Array_sort by_date_descending commitList in
          match commitList with
          | first :: _ =>
              Normal (jiraList ++
                [{| code := code;
                    lastCommitDate := date first;
                    developers :=
                      Js.Array_join ", " (Js.Set_from (map author commitList));
                    commits := List.length commitList;
                    jira := jira |}])
          | [] => Throw (TypeError "Cannot read properties of undefined, reading date")
          end
      | None => Throw (TypeError "Cannot read properties of undefined, reading sort")
      end
  | None => Normal jiraList
  end.

(** The order in which the lookups settle: by time of arrival, and in the
    order of the requests when two arrive together. *)
Definition settle_order (client : Client) (codes : list string) : list string :=
  Js.Array_sort
    (fun a b => (Z.of_nat (arrival client a) - Z.of_nat (arrival client b))%Z)
    codes.

(** [Promise.all] over the promises [fetchJiraMetadata(code, client).then(...)],
    whose callbacks run in the order in which the lookups settle.  It rejects
    with the first rejection.  (The callbacks behind a rejection still run,
    but nothing reads [jiraList] then.) *)
Fixpoint settle_all (jiraMap : JiraMap) (client : Client)
  (order : list string) (jiraList : list IssueRecord)
  : Promise (list IssueRecord) :=
  match order with
  | [] => Fulfilled jiraList
  | code :: order' =>
      match Promise_then (fetchJiraMetadata code client)
              (fun jira => push_jira jiraMap code jira jiraList) with
      | Fulfilled jiraList' => settle_all jiraMap client order' jiraList'
      | Rejected e => Rejected e
      | Pending => Pending
      end
  end.

(** [new Promise((resolve) => ...)]: [resolve(jiraList)] is only called when
    [Promise.all] fulfils; nothing rejects the new promise. *)
Definition aggregateJiraMetadata (jiraMap : JiraMap) (client : Client)
  : Promise (list IssueRecord) :=
  match settle_all jiraMap client
          (settle_order client (Js.Object_keys jiraMap)) [] with
  | Fulfilled jiraList => Fulfilled jiraList
  | Rejected _ | Pending => Pending
  end.

(** ** formatters.js *)

Inductive Cell : Type :=
| Text (s : string)
| Value (v : JsValue)
| Count (n : nat)
| Formatted (date : Z) (format : string).

(** A table of cli-table. *)
Record Table := {
  head : list string;
  colWidths : list nat;
  rows : list (list Cell)
}.

Definition Table_push (table : Table) (row : list Cell) : Table :=
  {| head := head table; colWidths := colWidths table;
     rows := rows table ++ [row] |}.

(** What [console.log] writes: a line of text, or [table.toString()]. *)
Inductive Output : Type :=
| Line (s : string)
| TableText (table : Table).

(** The state of a run: the RegExp objects and standard output. *)
Record World := { regexps : Heap; stdout : list Output }.

Definition IO (A : Type) : Type := World -> A * World.

Definition IO_ret {A} (a : A) : IO A := fun w => (a, w).

Definition IO_bind {A B} (c : IO A) (f : A -> IO B) : IO B :=
  fun w => let (a, w') := c w in f a w'.

Notation "x <~ c ;; k" := (IO_bind c (fun x => k))
  (at level 61, c at next level, right associativity).

Definition lift {A} (c : M A) : IO A :=
  fun w =>
    let (a, h) := c (regexps w) in
    (a, {| regexps := h; stdout := stdout w |}).

Definition console_log (o : Output) : IO unit :=
  fun w => (tt, {| regexps := regexps w; stdout := stdout w ++ [o] |}).

(** [jiraList] is [None] when the argument is [undefined]. *)
Definition generateJiraTermTable (jiraList : option (list IssueRecord))
  : IO (Completion unit) :=
  let table :=
    {| head := ["Code"; "Status"; "Title"; "Last Commit"; "Developer(s)";
                "Commits"; "Fix Version(s)"; "Assignee"]%string;
       colWidths := [14; 18; 40; 13; 16; 9; 16; 20];
       rows := [] |} in
  match jiraList with
  | Some jiraList =>
      let table :=
        fold_left
          (fun table li =>
             Table_push table
               [Text (code li);
                Value (status (jira li));
                Value (title (jira li));
                Formatted (lastCommitDate li) "ddd D MMM";
                Text (developers li);
                Count (commits li);
                Text (fixVersions (jira li));
                Value (assignee (jira li))])
          jiraList table in
      _ <~ console_log (TableText table) ;;
      IO_ret (Normal tt)
  | None =>
      IO_ret (Throw (TypeError "Cannot read properties of undefined, reading forEach"))
  end.

(** ** commands.js *)

(** [p.then(f)] and [p.catch(f)] for callbacks that act on the world. *)
Definition IO_then {A B} (p : Promise A) (f : A -> IO (Completion B))
  : IO (Promise B) :=
  match p with
  | Fulfilled a =>
      r <~ f a ;;
      IO_ret match r with
             | Normal b => Fulfilled b
             | Throw e => Rejected e
             end
  | Rejected e => IO_ret (Rejected e)
  | Pending => IO_ret Pending
  end.

Definition IO_catch {A} (p : Promise A) (f : Error -> IO (Completion A))
  : IO (Promise A) :=
  match p with
  | Fulfilled a => IO_ret (Fulfilled a)
  | Rejected e =>
      r <~ f e ;;
      IO_ret match r with
             | Normal a => Fulfilled a
             | Throw e' => Rejected e'
             end
  | Pending => IO_ret Pending
  end.

(** The options of [new JiraApi]; a missing piece of the split is
    [undefined]. *)
Record JiraApiOptions := {
  protocol : option string;
  apiVersion : string;
  strictSSL : bool;
  host : option string;
  username : option string;
  password : option string
}.

(** The external collaborators: the client that jira-client builds from its
    options, and the walk of nodegit from the head of the repository at a
    path until a commit with the given hash. *)
Record Environment := {
  JiraApi : JiraApiOptions -> Client;
  revwalk : string -> string -> Settled (list Commit)
}.

Variable env : Environment.

Definition initialiseJiraApi (host : string) (username password : option string)
  : Client :=
  let hostSplit := String_split host "://" in
  JiraApi env {| protocol := nth_error hostSplit 0;
             apiVersion := "2";
             strictSSL := true;
             host := nth_error hostSplit 1;
             username := username;
             password := password |}.

Definition getCommitsUntil (hash repo : string) : Promise (list Commit) :=
  Promise_then (Promise_of (revwalk env repo hash))
    (fun commits =>
       if List.length commits =? 0
       then Throw {| name := "Error";
                     message := "Current repo does not exist or contains no commits" |}
       else Normal commits).

Record Args := { url : string; auth : string; commit : string }.

(** [listInvalid] has an empty body. *)
Definition listInvalid (args : Args) : unit := tt.

(** The promise chain of [listJira].  What reaches the report step is the
    list of the aggregation ([Some]) or the [undefined] that the handler of
    [catch] returns ([None]). *)
Definition listJira (args : Args) : IO (Promise unit) :=
  let authSplit := String_split (auth args) ":" in
  let client :=
    initialiseJiraApi (url args) (nth_error authSplit 0) (nth_error authSplit 1) in
  p <~ IO_then (getCommitsUntil (commit args) ".")
         (fun commits =>
            commits <~ lift (filterMissingJiras commits) ;; IO_ret (Normal commits)) ;;
  p <~ IO_then p
         (fun commits =>
            jiraMap <~ lift (mapCommitsToJiras commits) ;; IO_ret (Normal jiraMap)) ;;
  p <~ IO_ret (Promise_then_promise p
                 (fun jiraMap => aggregateJiraMetadata jiraMap client)) ;;
  p <~ IO_catch (Promise_then p (fun jiraList => Normal (Some jiraList)))
         (fun err => _ <~ console_log (Line (message err)) ;; IO_ret (Normal None)) ;;
  IO_then p (fun jiraList => generateJiraTermTable jiraList).

(** ** Notions the properties are stated with *)

Local Open Scope string_scope.

(** A text that the pattern [\w+-\d+] describes: word characters, a hyphen,
    digits. *)
Definition code_text (m : string) : Prop :=
  exists w d,
    m = w ++ "-" ++ d
    /\ w <> EmptyString /\ JsString.all JsString.is_word w = true
    /\ d <> EmptyString /\ JsString.all JsString.is_digit d = true.

(** The summary contains at least one substring matching the code pattern. *)
Definition contains_code (s : string) : Prop :=
  exists pre m post, s = pre ++ m ++ post /\ code_text m.

(** The matches of the pattern in the summary of a commit, from left to
    right. *)
Definition jiras_of (commit : Commit) : list string :=
  match RegExp.String_match (summary commit)
          (RegExp.literal RegExp.jira_pattern) with
  | Some jiras => jiras
  | None => []
  end.

(** The codes of a sequence of commits in the order in which they are
    encountered, each with the commit it was found in. *)
Definition encounters (commits : list Commit) : list (string * Commit) :=
  flat_map
    (fun commit =>
       map (fun jira => (JsString.toUpperCase jira, commit)) (jiras_of commit))
    commits.

(** The distinct elements of a list in the order of their first
    occurrences. *)
Fixpoint distinct (l : list string) : list string :=
  match l with
  | [] => []
  | x :: l' => x :: filter (fun y => negb (String.eqb y x)) (distinct l')
  end.

(** The commits encountered with a code, in the order of the encounters. *)
Definition commits_of (code : string) (found : list (string * Commit))
  : list Commit :=
  map snd (filter (fun p => String.eqb (fst p) code) found).

(** The effect of one encounter on the mapping: the commit goes to the end
    of the group of its code, and a new code is created last. *)
Definition record_encounter (jiraMap : JiraMap) (p : string * Commit) : JiraMap :=
  Js.Object_set jiraMap (fst p)
    match Js.Object_get jiraMap (fst p) with
    | Some group => (group ++ [snd p])%list
    | None => [snd p]
    end.

(** Extraction and grouping, run twice on the same commits: the second run
    starts in the heap the first one leaves. *)
Definition extract_and_group_twice (commits : list Commit)
  : M (JiraMap * JiraMap) :=
  first <- extract_and_group commits ;;
  second <- extract_and_group commits ;;
  ret (first, second).

(** A CodeGroup mapping: the keys are unique, as in every object, and every
    group holds a commit. *)
Definition CodeGroup (jiraMap : JiraMap) : Prop :=
  NoDup (Js.Object_keys jiraMap) /\ Forall (fun p => snd p <> []) jiraMap.

(** What [filter] keeps when the RegExp object behind [regex] is [R]: the
    kept commits and the object after the last test. *)
Fixpoint filter_from (R : RegExp.t) (commits : list Commit)
  : list Commit * RegExp.t :=
  match commits with
  | [] => ([], R)
  | commit :: commits' =>
      let (keep, R') := RegExp.test R (summary commit) in
      let (rest, R'') := filter_from R' commits' in
      (if keep then commit :: rest else rest, R'')
  end.

(** The lookup of a code ended with metadata. *)
Definition fetched (client : Client) (code : string) : bool :=
  match fetchJiraMetadata code client with
  | Fulfilled (Some _) => true
  | _ => false
  end.

(** [d] is the maximum date among the commits of a group. *)
Definition max_date (d : Z) (group : list Commit) : Prop :=
  In d (map date group) /\ forall c, In c group -> (date c <= d)%Z.

(** An issue as the tracker sends it: a summary, the name of a status, the
    names of the fix versions, and an assignee with a display name or
    [null]. *)
Definition tracker_issue (summary status : string) (versions : list string)
  (assignee : option string) : JsValue :=
  JObject
    [("fields",
      JObject
        [("summary", JString summary);
         ("status", JObject [("name", JString status)]);
         ("fixVersions",
          JArray (map (fun v => JObject [("name", JString v)]) versions));
         ("assignee",
          match assignee with
          | Some displayName => JObject [("displayName", JString displayName)]
          | None => JNull
          end)])].

(** What a record says about the group and the lookup of its code. *)
Definition describes (jiraMap : JiraMap) (client : Client) (r : IssueRecord)
  : Prop :=
  exists group,
    Js.Object_get jiraMap (code r) = Some group
    /\ fetchJiraMetadata (code r) client = Fulfilled (Some (jira r))
    /\ commits r = List.length group
    /\ max_date (lastCommitDate r) group
    /\ exists names,
         developers r = Js.Array_join ", " names
         /\ NoDup names
         /\ forall a, In a names <-> In a (map author group).

(** The lookups settle in the order in which they were requested. *)
Definition settles_in_request_order (client : Client) (codes : list string)
  : Prop :=
  StronglySorted (fun a b => arrival client a <= arrival client b) codes.

(** [/\w+-\d+/.test(commit.summary)] on a RegExp object that has not been
    used: whether the summary holds a code. *)
Definition has_code (commit : Commit) : bool :=
  fst (RegExp.test (RegExp.literal RegExp.jira_pattern) (summary commit)).

(** [jiraMap[code] || []] *)
Definition group_of (jiraMap : JiraMap) (code : string) : list Commit :=
  match Js.Object_get jiraMap code with
  | Some group => group
  | None => []
  end.

(** The number of entries of all the groups of a mapping. *)
Definition group_entries (jiraMap : JiraMap) : nat :=
  list_sum (map (fun p => List.length (snd p)) jiraMap).

(** The record that the callback of the lookup of a code pushes, if it
    pushes one. *)
Definition issue_record (jiraMap : JiraMap) (client : Client) (code : string)
  : list IssueRecord :=
  match fetchJiraMetadata code client with
  | Fulfilled (Some metadata) =>
      match push_jira jiraMap code (Some metadata) [] with
      | Normal records => records
      | Throw _ => []
      end
  | _ => []
  end.

(** No code unit of the text is [c]. *)
Definition free_of (c : ascii) (s : string) : Prop :=
  JsString.all (fun x => negb (Ascii.eqb x c)) s = true.

(** The separator does not occur in the text. *)
Definition without (sep s : string) : Prop :=
  forall pre post, s <> pre ++ sep ++ post.

(** Whether the separator occurs in the text. *)
Fixpoint occurs (sep s : string) : bool :=
  String.prefix sep s
  || match s with
     | EmptyString => false
     | String _ s' => occurs sep s'
     end.

End Pipeline.

(** ** Sample data *)

(** Integers as the numbers of a response. *)
#[export] Instance Z_JsNumber : JsNumber Z := {|
  Number_toString := fun z => NilEmpty.string_of_int (Z.to_int z);
  Number_toBoolean := fun z => negb (z =? 0)%Z
|}.

(** The scenario of two commits on one issue, the second one naming a second
    issue whose lookup fails. *)
Definition monday_fix : Commit :=
  {| date := 1; author := "A"; summary := "fix ABC-1" |}.

Definition tuesday_rework : Commit :=
  {| date := 2; author := "B"; summary := "ABC-1 rework, see DEF-2" |}.

Definition issue_T1 : @JsValue Z :=
  JObject
    [("key", JString "ABC-1");
     ("fields",
      JObject [("summary", JString "T1");
               ("status", JObject [("name", JString "Open")]);
               ("fixVersions", JArray []);
               ("assignee", JNull)])]%string.

Definition not_found : Error :=
  {| name := "StatusCodeError"; message := "404" |}.

(** [ABC-1] is found, every other lookup fails; [late] is the code whose
    response arrives last. *)
Definition sample_client (late : string) : @Client Z :=
  {| findIssue :=
       fun code =>
         if String.eqb code "ABC-1" then Resolves issue_T1
         else Rejects not_found;
     arrival := fun code => if String.eqb code late then 2 else 1 |}.

(** Every lookup finds an issue. *)
Definition generous_client (late : string) : @Client Z :=
  {| findIssue := fun _ => Resolves issue_T1;
     arrival := fun code => if String.eqb code late then 2 else 1 |}.

(** The mapping of the two commits of the scenario. *)
Definition sample_map : JiraMap :=
  [("ABC-1", [monday_fix; tuesday_rework]); ("DEF-2", [tuesday_rework])]%string.

(** Two commits, each naming one code at the start of its summary. *)
Definition first_commit : Commit :=
  {| date := 1; author := "A"; summary := "ABC-1" |}.

Definition second_commit : Commit :=
  {| date := 2; author := "B"; summary := "DEF-2" |}.

(** A directory that is not a repository. *)
Definition no_repository : @Environment Z :=
  {| JiraApi := fun _ => sample_client "DEF-2";
     revwalk :=
       fun _ _ =>
         Rejects {| name := "Error";
                    message := "could not find repository from '.'" |} |}.

Definition sample_args : Args :=
  {| url := "https://jira.example.org"; auth := "user:token";
     commit := "0123abc" |}.

(** An issue with two fix versions and an assignee. *)
Definition assigned_client : @Client Z :=
  {| findIssue :=
       fun _ => Resolves (tracker_issue "T2" "Done" ["1.0"; "1.1"] (Some "Ann"));
     arrival := fun _ => 0 |}%string.

(** A response without [fields]. *)
Definition bare_issue : @JsValue Z := JObject [("key", JString "ABC-1")]%string.

Definition bare_client : @Client Z :=
  {| findIssue := fun _ => Resolves bare_issue; arrival := fun _ => 0 |}.

(** A repository whose walk finds the two commits of the scenario, the
    latest first. *)
Definition sample_repository : @Environment Z :=
  {| JiraApi := fun _ => sample_client "DEF-2";
     revwalk := fun _ _ => Resolves [tuesday_rework; monday_fix] |}.

(** A repository whose only commit names no issue. *)
Definition merge_commit : Commit :=
  {| date := 3; author := "C"; summary := "Merge branch 'main'" |}.

Definition codeless_repository : @Environment Z :=
  {| JiraApi := fun _ => sample_client "DEF-2";
     revwalk := fun _ _ => Resolves [merge_commit] |}.

Definition empty_world : @World Z := {| regexps := []; stdout := [] |}.

(** * Properties *)

Section Properties.

Context {Number : Type} {Number_ops : JsNumber Number}.
Variable env : @Environment Number.

Local Open Scope string_scope.

(** ** Strings *)

Lemma append_empty_r (s : string) : s ++ EmptyString = s.
Proof. induction s; simpl; congruence. Qed.

Lemma append_assoc (a b c : string) : (a ++ b) ++ c = a ++ b ++ c.
Proof. induction a; simpl; congruence. Qed.

Lemma length_append (a b : string) :
  String.length (a ++ b) = String.length a + String.length b.
Proof. induction a; simpl; congruence. Qed.

Lemma take_drop (n : nat) (s : string) :
  JsString.take n s ++ JsString.drop n s = s.
Proof.
  revert s; induction n as [|n IH]; intros [|c s]; simpl; try reflexivity.
  now rewrite IH.
Qed.

Lemma drop_append (a b : string) : JsString.drop (String.length a) (a ++ b) = b.
Proof. induction a; simpl; [now destruct b | assumption]. Qed.

Lemma take_append (a b : string) : JsString.take (String.length a) (a ++ b) = a.
Proof. induction a; simpl; [now destruct b | congruence]. Qed.

Lemma drop_drop (i j : nat) (s : string) :
  JsString.drop i (JsString.drop j s) = JsString.drop (j + i) s.
Proof.
  revert s; induction j as [|j IH]; intros s; simpl; [reflexivity|].
  destruct s as [|c s]; simpl; [now destruct i | apply IH].
Qed.

Lemma length_drop (n : nat) (s : string) :
  String.length (JsString.drop n s) = String.length s - n.
Proof.
  revert s; induction n as [|n IH]; intros [|c s]; simpl; auto.
Qed.

Lemma all_append (p : ascii -> bool) (a b : string) :
  JsString.all p (a ++ b) = JsString.all p a && JsString.all p b.
Proof.
  induction a as [|c a IH]; simpl; [reflexivity|].
  now rewrite IH, andb_assoc.
Qed.

(** ** The pattern *)

Lemma all_take_span (cls : ascii -> bool) (s : string) :
  JsString.all cls (JsString.take (JsString.span cls s) s) = true.
Proof.
  induction s as [|c s IH]; simpl; [reflexivity|].
  destruct (cls c) eqn:E; simpl; [now rewrite E, IH | reflexivity].
Qed.

Lemma length_take_span (cls : ascii -> bool) (s : string) :
  String.length (JsString.take (JsString.span cls s) s) = JsString.span cls s.
Proof.
  induction s as [|c s IH]; simpl; [reflexivity|].
  destruct (cls c); simpl; congruence.
Qed.

Lemma span_append_all (cls : ascii -> bool) (a b : string) :
  JsString.all cls a = true -> JsString.span cls (a ++ b) = String.length a + JsString.span cls b.
Proof.
  induction a as [|c a IH]; simpl; [reflexivity|].
  destruct (cls c); simpl; [intros H; now rewrite IH | discriminate].
Qed.

(** A greedy repetition at the end of a pattern takes the longest prefix. *)
Lemma plus_accept (cls : ascii -> bool) (s : string) :
  RegExp.plus cls RegExp.accept s =
  match JsString.span cls s with
  | 0 => None
  | n => Some n
  end.
Proof.
  induction s as [|c s IH]; simpl; [reflexivity|].
  destruct (cls c); [|reflexivity].
  rewrite IH. now destruct (JsString.span cls s).
Qed.

(** A greedy repetition never gives a code unit back when the continuation
    refuses every text that starts in the class. *)
Lemma plus_no_backtrack (cls : ascii -> bool) (k : RegExp.Matcher) (s : string) :
  (forall c s', cls c = true -> k (String c s') = None) ->
  RegExp.plus cls k s =
  match JsString.span cls s with
  | 0 => None
  | n => option_map (Nat.add n) (k (JsString.drop n s))
  end.
Proof.
  intros Hk. induction s as [|c s IH]; simpl; [reflexivity|].
  destruct (cls c) eqn:E; [|reflexivity].
  rewrite IH. destruct s as [|c' s]; simpl; [reflexivity|].
  destruct (cls c') eqn:E'; simpl.
  - destruct (k (JsString.drop (JsString.span cls s) s)) as [n|]; simpl; [reflexivity|].
    now rewrite Hk.
  - reflexivity.
Qed.

Lemma hyphen_not_word (c : ascii) :
  JsString.is_word c = true -> Ascii.eqb c "-" = false.
Proof.
  intros H. destruct (Ascii.eqb c "-") eqn:E; [|reflexivity].
  apply Ascii.eqb_eq in E. subst c. discriminate H.
Qed.

(** What the backtracking matcher of [\w+-\d+] computes at a position. *)
Lemma matcher_jira_pattern (s : string) :
  RegExp.matcher RegExp.jira_pattern s =
  match JsString.span JsString.is_word s with
  | 0 => None
  | n =>
      match JsString.drop n s with
      | String c rest =>
          if Ascii.eqb c "-" then
            match JsString.span JsString.is_digit rest with
            | 0 => None
            | d => Some (n + S d)
            end
          else None
      | EmptyString => None
      end
  end.
Proof.
  unfold RegExp.jira_pattern. cbn [RegExp.matcher].
  change (RegExp.in_class RegExp.Word) with JsString.is_word.
  change (RegExp.in_class RegExp.Digit) with JsString.is_digit.
  change (RegExp.in_class (RegExp.Literal "-")) with (fun c => Ascii.eqb c "-").
  rewrite plus_no_backtrack.
  - destruct (JsString.span JsString.is_word s) as [|n]; [reflexivity|].
    unfold RegExp.one.
    destruct (JsString.drop (S n) s) as [|c rest]; [reflexivity|].
    destruct (Ascii.eqb c "-"); [|reflexivity].
    rewrite plus_accept.
    now destruct (JsString.span JsString.is_digit rest).
  - intros c s' Hc. unfold RegExp.one. now rewrite hyphen_not_word.
Qed.

Lemma take_add (a b : nat) (s : string) :
  JsString.take (a + b) s = JsString.take a s ++ JsString.take b (JsString.drop a s).
Proof.
  revert s; induction a as [|a IH]; intros s; simpl; [reflexivity|].
  destruct s as [|c s]; simpl; [now destruct b | now rewrite IH].
Qed.

Lemma take_span_nonempty (cls : ascii -> bool) (s : string) (n : nat) :
  JsString.span cls s = S n -> JsString.take (S n) s <> EmptyString.
Proof.
  destruct s as [|c s]; simpl; intros H; [discriminate H|].
  destruct (cls c); discriminate.
Qed.

Lemma span_le_length (cls : ascii -> bool) (s : string) :
  JsString.span cls s <= String.length s.
Proof.
  induction s as [|c s IH]; simpl; [lia|]. destruct (cls c); lia.
Qed.

(** A match at a position is a text of the pattern, and it is not empty. *)
Lemma matcher_sound (s : string) (n : nat) :
  RegExp.matcher RegExp.jira_pattern s = Some n ->
  code_text (JsString.take n s) /\ 0 < n <= String.length s.
Proof.
  rewrite matcher_jira_pattern.
  destruct (JsString.span JsString.is_word s) as [|a] eqn:Ha; [discriminate|].
  cbv zeta.
  destruct (JsString.drop (S a) s) as [|c rest] eqn:Hd; [discriminate|].
  destruct (Ascii.eqb c "-") eqn:Hc; [|discriminate].
  destruct (JsString.span JsString.is_digit rest) as [|d] eqn:Hr; [discriminate|].
  intros [= <-]. apply Ascii.eqb_eq in Hc. subst c. split.
  - exists (JsString.take (S a) s), (JsString.take (S d) rest).
    repeat split.
    + change (S (a + S (S d))) with (S a + S (S d)).
      rewrite take_add, Hd. reflexivity.
    + now apply take_span_nonempty with (cls := JsString.is_word).
    + rewrite <- Ha. apply all_take_span.
    + now apply take_span_nonempty with (cls := JsString.is_digit).
    + rewrite <- Hr. apply all_take_span.
  - split; [lia|].
    pose proof (length_drop (S a) s) as L. rewrite Hd in L. simpl in L.
    pose proof (span_le_length JsString.is_digit rest). lia.
Qed.

(** Where a text of the pattern starts, the matcher finds a match. *)
Lemma matcher_complete (m post : string) :
  code_text m -> RegExp.matcher RegExp.jira_pattern (m ++ post) <> None.
Proof.
  intros (w & d & -> & Hw & Hww & Hd & Hdd).
  rewrite matcher_jira_pattern, !append_assoc.
  rewrite (span_append_all _ _ _ Hww). simpl JsString.span at 1.
  rewrite Nat.add_0_r.
  generalize (drop_append w ("-" ++ d ++ post)).
  destruct (String.length w) as [|a] eqn:La; [now destruct w|].
  intros Hdrop. cbv zeta. rewrite Hdrop. simpl.
  rewrite (span_append_all _ _ _ Hdd).
  destruct (String.length d) as [|b] eqn:Lb; [now destruct d|].
  simpl. discriminate.
Qed.

(** The scan returns the first position at which the matcher succeeds. *)
Lemma scan_some (m : RegExp.Matcher) (s : string) (k i e : nat) :
  RegExp.scan m s k = Some (i, e) ->
  exists j, i = k + j /\ j <= String.length s
            /\ m (JsString.drop j s) = Some (e - i) /\ i <= e.
Proof.
  revert k; induction s as [|c s IH]; intros k; simpl.
  - destruct (m EmptyString) as [n|] eqn:E; [|discriminate].
    intros [= <- <-]. exists 0. simpl. rewrite E.
    repeat split; try lia. f_equal; lia.
  - destruct (m (String c s)) as [n|] eqn:E.
    + intros [= <- <-]. exists 0. simpl. rewrite E.
      repeat split; try lia. f_equal; lia.
    + intros H. apply IH in H as (j & -> & Hj & Hm & Hle).
      exists (S j). simpl. repeat split; try lia.
      rewrite Hm. f_equal; lia.
Qed.

Lemma scan_none (m : RegExp.Matcher) (s : string) (k : nat) :
  RegExp.scan m s k = None ->
  forall j, j <= String.length s -> m (JsString.drop j s) = None.
Proof.
  revert k; induction s as [|c s IH]; intros k; simpl.
  - destruct (m EmptyString) eqn:E; [discriminate|]. intros _ [|j] _; exact E.
  - destruct (m (String c s)) eqn:E; [discriminate|].
    intros H [|j] Hj; simpl; [exact E|]. apply (IH _ H). lia.
Qed.

Lemma contains_code_drop (i : nat) (s : string) :
  contains_code (JsString.drop i s) -> contains_code s.
Proof.
  intros (pre & m & post & H & Hm).
  exists (JsString.take i s ++ pre), m, post. split; [|exact Hm].
  rewrite append_assoc, <- H. symmetry. apply take_drop.
Qed.

Lemma matcher_contains_code (s : string) (j n : nat) :
  RegExp.matcher RegExp.jira_pattern (JsString.drop j s) = Some n ->
  contains_code s.
Proof.
  intros H. apply contains_code_drop with (i := j).
  exists EmptyString, (JsString.take n (JsString.drop j s)),
         (JsString.drop n (JsString.drop j s)).
  split; [simpl; symmetry; apply take_drop | apply (matcher_sound _ _ H)].
Qed.

Lemma contains_code_matcher (s : string) :
  contains_code s ->
  exists j, j <= String.length s
            /\ RegExp.matcher RegExp.jira_pattern (JsString.drop j s) <> None.
Proof.
  intros (pre & m & post & -> & Hm). exists (String.length pre). split.
  - rewrite length_append. lia.
  - rewrite drop_append. now apply matcher_complete.
Qed.

(** [test] answers [true] exactly when the text from [lastIndex] on contains
    a code: what lies before [lastIndex] is not searched. *)
Lemma test_true_iff (i : nat) (s : string) :
  fst (RegExp.test {| RegExp.source := RegExp.jira_pattern;
                      RegExp.lastIndex := i |} s) = true
  <-> i <= String.length s /\ contains_code (JsString.drop i s).
Proof.
  unfold RegExp.test, RegExp.exec. cbn [RegExp.lastIndex RegExp.source].
  destruct (String.length s <? i)%nat eqn:L.
  - apply Nat.ltb_lt in L. cbn [fst]. split; [discriminate | lia].
  - apply Nat.ltb_ge in L.
    destruct (RegExp.scan _ (JsString.drop i s) i) as [[a b]|] eqn:E; cbn [fst].
    + split; [intros _ | reflexivity]. split; [exact L|].
      apply scan_some in E as (j & _ & _ & Hm & _).
      now apply matcher_contains_code in Hm.
    + split; [discriminate|]. intros [_ H].
      apply contains_code_matcher in H as (j & Hj & Hm).
      now rewrite (scan_none _ _ _ E j Hj) in Hm.
Qed.

(** On a new RegExp object, [test] decides whether the text contains a
    code. *)
Lemma test_literal_iff (s : string) :
  fst (RegExp.test (RegExp.literal RegExp.jira_pattern) s) = true
  <-> contains_code s.
Proof.
  unfold RegExp.literal. rewrite test_true_iff. simpl.
  split; [now intros [_ H] | intros H; split; [lia | exact H]].
Qed.

(** ** [exec] and the loop of [match] *)

Local Open Scope list_scope.

Lemma exec_some (R R' : RegExp.t) (s : string) (i e : nat) :
  RegExp.exec R s = (Some (i, e), R') ->
  RegExp.lastIndex R <= i <= e
  /\ RegExp.lastIndex R <= String.length s
  /\ R' = RegExp.set_lastIndex R e.
Proof.
  unfold RegExp.exec.
  destruct (String.length s <? RegExp.lastIndex R)%nat eqn:L; [discriminate|].
  apply Nat.ltb_ge in L.
  destruct (RegExp.scan _ _ _) as [[a b]|] eqn:E; [|discriminate].
  intros [= -> -> <-]. apply scan_some in E as (j & -> & _ & _ & Hle).
  repeat split; lia || reflexivity.
Qed.

Lemma exec_past_end (R : RegExp.t) (s : string) :
  String.length s < RegExp.lastIndex R -> fst (RegExp.exec R s) = None.
Proof.
  intros H. unfold RegExp.exec.
  apply Nat.ltb_lt in H. now rewrite H.
Qed.

(** The loop of [match] ends by itself: fuel beyond what is left of the text
    changes nothing. *)
Lemma match_loop_fuel (s : string) (n m : nat) (R : RegExp.t) :
  String.length s + 1 - RegExp.lastIndex R <= n ->
  String.length s + 1 - RegExp.lastIndex R <= m ->
  RegExp.match_loop n R s = RegExp.match_loop m R s.
Proof.
  revert m R; induction n as [|n IH]; intros m R Hn Hm.
  - assert (H : fst (RegExp.exec R s) = None) by (apply exec_past_end; lia).
    destruct m as [|m]; simpl; [reflexivity|].
    destruct (RegExp.exec R s) as [[[i e]|] R']; [discriminate H | reflexivity].
  - destruct m as [|m]; simpl.
    + assert (H : fst (RegExp.exec R s) = None) by (apply exec_past_end; lia).
      destruct (RegExp.exec R s) as [[[i e]|] R']; [discriminate H | reflexivity].
    + destruct (RegExp.exec R s) as [[[i e]|] R'] eqn:E; [|reflexivity].
      apply exec_some in E as (Hi & Hl & ->).
      f_equal. destruct (e =? i)%nat eqn:Ei.
      * apply Nat.eqb_eq in Ei. apply IH; simpl; lia.
      * apply Nat.eqb_neq in Ei. apply IH; simpl; lia.
Qed.

(** ** The heap *)

Lemma nth_error_new (h : Heap) (R : RegExp.t) :
  nth_error (h ++ [R]) (List.length h) = Some R.
Proof. induction h; simpl; auto. Qed.

Lemma heap_update_new (h : Heap) (R R' : RegExp.t) :
  heap_update (h ++ [R]) (List.length h) R' = h ++ [R'].
Proof. induction h; simpl; congruence. Qed.

(** The filter only touches the object of its own literal. *)
Lemma Array_filter_test (commits : list Commit) (h : Heap) (R : RegExp.t) :
  Array_filter (fun commit => RegExp_test (List.length h) (summary commit))
    commits (h ++ [R])
  = (fst (filter_from R commits), h ++ [snd (filter_from R commits)]).
Proof.
  revert R; induction commits as [|c cs IH]; intros R; simpl; [reflexivity|].
  unfold bind, RegExp_test at 1. rewrite nth_error_new.
  destruct (RegExp.test R (summary c)) as [keep R'].
  rewrite heap_update_new, IH.
  now destruct (filter_from R' cs) as [rest R''].
Qed.

(** [filterMissingJiras] starts from a new RegExp object each time it is
    called: its result does not depend on the heap it runs in. *)
Lemma filterMissingJiras_run (commits : list Commit) (h : Heap) :
  filterMissingJiras commits h
  = (fst (filter_from (RegExp.literal RegExp.jira_pattern) commits),
     h ++ [snd (filter_from (RegExp.literal RegExp.jira_pattern) commits)]).
Proof.
  unfold filterMissingJiras, bind, new_RegExp. apply Array_filter_test.
Qed.

Lemma add_commit_run (jiraMap : JiraMap) (c : Commit) (h : Heap) :
  add_commit jiraMap c h
  = (fold_left (add_jira c) (jiras_of c) jiraMap,
     h ++ [RegExp.literal RegExp.jira_pattern]).
Proof.
  unfold add_commit, bind, new_RegExp, String_match, ret, jiras_of.
  rewrite nth_error_new, heap_update_new.
  now destruct (RegExp.String_match _ _).
Qed.

(** The kept commits are commits of the input whose summary contains a
    code. *)
Lemma filter_from_sound (commits : list Commit) (R : RegExp.t) (c : Commit) :
  RegExp.source R = RegExp.jira_pattern ->
  In c (fst (filter_from R commits)) ->
  In c commits /\ contains_code (summary c).
Proof.
  revert R; induction commits as [|c0 cs IH]; intros R HR; simpl; [tauto|].
  destruct (RegExp.test R (summary c0)) as [keep R'] eqn:T.
  assert (HR' : RegExp.source R' = RegExp.jira_pattern).
  { revert T. unfold RegExp.test, RegExp.exec.
    destruct (_ <? _)%nat; [now intros [= _ <-]|].
    destruct (RegExp.scan _ _ _) as [[a b]|]; now intros [= _ <-]. }
  specialize (IH R' HR').
  destruct (filter_from R' cs) as [rest R'']. simpl in *.
  destruct keep; simpl.
  - intros [<- | H]; [|destruct (IH H); tauto].
    split; [now left|].
    assert (K : fst (RegExp.test R (summary c0)) = true) by now rewrite T.
    destruct R as [src i]. simpl in HR. subst src.
    apply test_true_iff in K as [_ K]. now apply contains_code_drop in K.
  - intros H. destruct (IH H). tauto.
Qed.

(** ** Objects and sets *)

Lemma Object_get_set {V} (o : Js.Object V) (k k' : string) (v : V) :
  Js.Object_get (Js.Object_set o k v) k'
  = if String.eqb k' k then Some v else Js.Object_get o k'.
Proof.
  induction o as [|[k0 v0] o IH]; simpl.
  - reflexivity.
  - destruct (String.eqb k k0) eqn:E; simpl.
    + apply String.eqb_eq in E. subst k0.
      now destruct (String.eqb k' k).
    + destruct (String.eqb k' k0) eqn:E'; [|exact IH].
      apply String.eqb_eq in E'. subst k0.
      rewrite String.eqb_sym in E. now rewrite E.
Qed.

Lemma Object_set_set {V} (o : Js.Object V) (k : string) (v v' : V) :
  Js.Object_set (Js.Object_set o k v) k v' = Js.Object_set o k v'.
Proof.
  induction o as [|[k0 v0] o IH]; simpl.
  - now rewrite String.eqb_refl.
  - destruct (String.eqb k k0) eqn:E; simpl; rewrite E; congruence.
Qed.

Lemma Object_keys_set {V} (o : Js.Object V) (k : string) (v : V) :
  Js.Object_keys (Js.Object_set o k v) = Js.Set_add (Js.Object_keys o) k.
Proof.
  unfold Js.Set_add, Js.Object_keys.
  induction o as [|[k0 v0] o IH]; simpl; [reflexivity|].
  destruct (String.eqb k k0); simpl; [reflexivity|].
  rewrite IH. now destruct (existsb (String.eqb k) (map fst o)).
Qed.

Lemma Object_get_In {V} (o : Js.Object V) (k : string) (v : V) :
  Js.Object_get o k = Some v -> In (k, v) o.
Proof.
  induction o as [|[k0 v0] o IH]; simpl; [discriminate|].
  destruct (String.eqb k k0) eqn:E.
  - apply String.eqb_eq in E. intros [= ->]. left. congruence.
  - auto.
Qed.

Lemma In_keys_get {V} (o : Js.Object V) (k : string) :
  In k (Js.Object_keys o) -> exists v, Js.Object_get o k = Some v.
Proof.
  unfold Js.Object_keys.
  induction o as [|[k0 v0] o IH]; simpl; [tauto|].
  destruct (String.eqb k k0) eqn:E; [eauto|].
  intros [H | H]; [|auto]. subst k0. now rewrite String.eqb_refl in E.
Qed.

Lemma existsb_eqb_In (x : string) (l : list string) :
  existsb (String.eqb x) l = true <-> In x l.
Proof.
  rewrite existsb_exists. split.
  - intros (y & Hy & E). apply String.eqb_eq in E. now subst.
  - intros H. exists x. split; [exact H | apply String.eqb_refl].
Qed.

Lemma In_distinct (x : string) (l : list string) :
  In x (distinct l) <-> In x l.
Proof.
  induction l as [|y l IH]; simpl; [tauto|].
  rewrite filter_In, IH, negb_true_iff.
  destruct (String.eqb x y) eqn:E.
  - apply String.eqb_eq in E. subst. tauto.
  - apply String.eqb_neq in E. split; [tauto|].
    intros [H | H]; [now subst | tauto].
Qed.

Lemma NoDup_distinct (l : list string) : NoDup (distinct l).
Proof.
  induction l as [|y l IH]; simpl; constructor.
  - rewrite filter_In, String.eqb_refl. now intros [_ H].
  - now apply NoDup_filter.
Qed.

Lemma filter_all {A} (f : A -> bool) (l : list A) :
  (forall x, In x l -> f x = true) -> filter f l = l.
Proof.
  induction l as [|x l IH]; simpl; intros H; [reflexivity|].
  rewrite (H x (or_introl eq_refl)). f_equal. apply IH. auto.
Qed.

Lemma filter_filter {A} (f g : A -> bool) (l : list A) :
  filter f (filter g l) = filter (fun x => g x && f x) l.
Proof.
  induction l as [|x l IH]; simpl; [reflexivity|].
  destruct (g x); simpl; [destruct (f x)|]; congruence.
Qed.

(** Adding the elements of a list to a set adds its distinct new elements,
    in the order of their first occurrences. *)
Lemma fold_Set_add (l acc : list string) :
  fold_left Js.Set_add l acc
  = acc ++ filter (fun x => negb (existsb (String.eqb x) acc)) (distinct l).
Proof.
  revert acc; induction l as [|y l IH]; intros acc; simpl.
  - now rewrite app_nil_r.
  - rewrite IH. unfold Js.Set_add.
    destruct (existsb (String.eqb y) acc) eqn:E; simpl.
    + f_equal. rewrite filter_filter. apply filter_ext. intros x.
      destruct (String.eqb x y) eqn:Exy; simpl; [|reflexivity].
      apply String.eqb_eq in Exy. subst. now rewrite E.
    + rewrite <- app_assoc. simpl. do 2 f_equal.
      rewrite filter_filter. apply filter_ext. intros x.
      rewrite existsb_app. simpl. rewrite orb_false_r, negb_orb.
      apply andb_comm.
Qed.

Lemma Set_from_distinct (l : list string) : Js.Set_from l = distinct l.
Proof.
  unfold Js.Set_from. rewrite fold_Set_add. simpl. now apply filter_all.
Qed.

(** ** The group step *)

Lemma add_jira_record (c : Commit) (jiraMap : JiraMap) (jira : string) :
  add_jira c jiraMap jira
  = record_encounter jiraMap (JsString.toUpperCase jira, c).
Proof.
  unfold add_jira, record_encounter. simpl.
  destruct (Js.Object_get jiraMap (JsString.toUpperCase jira)) as [g|] eqn:E.
  - now rewrite E.
  - rewrite Object_get_set, String.eqb_refl. apply Object_set_set.
Qed.

Lemma fold_add_jira (c : Commit) (jiras : list string) (jiraMap : JiraMap) :
  fold_left (add_jira c) jiras jiraMap
  = fold_left record_encounter
      (map (fun jira => (JsString.toUpperCase jira, c)) jiras) jiraMap.
Proof.
  revert jiraMap; induction jiras as [|j js IH]; intros m; simpl; [reflexivity|].
  now rewrite add_jira_record, IH.
Qed.

Lemma Array_forEach_add_commit (commits : list Commit) (jiraMap : JiraMap)
  (h : Heap) :
  Array_forEach add_commit commits jiraMap h
  = (fold_left record_encounter (encounters commits) jiraMap,
     h ++ repeat (RegExp.literal RegExp.jira_pattern) (List.length commits)).
Proof.
  revert jiraMap h; induction commits as [|c cs IH]; intros m h; simpl.
  - unfold ret. now rewrite app_nil_r.
  - unfold bind. rewrite add_commit_run, IH, <- app_assoc.
    unfold encounters. simpl. now rewrite fold_left_app, fold_add_jira.
Qed.

(** [mapCommitsToJiras] records the encounters one after the other, and its
    result does not depend on the heap it runs in. *)
Lemma mapCommitsToJiras_run (commits : list Commit) (h : Heap) :
  mapCommitsToJiras commits h
  = (fold_left record_encounter (encounters commits) [],
     h ++ repeat (RegExp.literal RegExp.jira_pattern) (List.length commits)).
Proof. apply Array_forEach_add_commit. Qed.

Lemma keys_record_encounter (jiraMap : JiraMap) (p : string * Commit) :
  Js.Object_keys (record_encounter jiraMap p)
  = Js.Set_add (Js.Object_keys jiraMap) (fst p).
Proof. apply Object_keys_set. Qed.

Lemma keys_fold_record (found : list (string * Commit)) (jiraMap : JiraMap) :
  Js.Object_keys (fold_left record_encounter found jiraMap)
  = fold_left Js.Set_add (map fst found) (Js.Object_keys jiraMap).
Proof.
  revert jiraMap; induction found as [|p f IH]; intros m; simpl; [reflexivity|].
  now rewrite IH, keys_record_encounter.
Qed.

Lemma get_fold_record (found : list (string * Commit)) (jiraMap : JiraMap)
  (code : string) :
  Js.Object_get (fold_left record_encounter found jiraMap) code
  = match commits_of code found with
    | [] => Js.Object_get jiraMap code
    | l =>
        Some (match Js.Object_get jiraMap code with
              | Some group => group
              | None => []
              end ++ l)
    end.
Proof.
  revert jiraMap; induction found as [|[k c] f IH]; intros m; [reflexivity|].
  cbn [fold_left]. rewrite IH. unfold record_encounter, commits_of.
  cbn [fst snd filter]. rewrite Object_get_set, (String.eqb_sym code k).
  destruct (String.eqb k code) eqn:E.
  - apply String.eqb_eq in E. subst k. cbn [map snd].
    destruct (map snd (filter _ f)) as [|c' l];
      destruct (Js.Object_get m code) as [g|]; simpl;
      now rewrite <- ?app_assoc.
  - reflexivity.
Qed.

Lemma commits_of_nil (code : string) (found : list (string * Commit)) :
  commits_of code found = [] -> ~ In code (map fst found).
Proof.
  unfold commits_of. induction found as [|[k c] f IH]; simpl; [tauto|].
  destruct (String.eqb k code) eqn:E; [discriminate|].
  apply String.eqb_neq in E. intros H [K | K]; [congruence | now apply IH].
Qed.

Lemma Forall_Object_set (o : JiraMap) (k : string) (g : list Commit) :
  Forall (fun p => snd p <> []) o -> g <> [] ->
  Forall (fun p => snd p <> []) (Js.Object_set o k g).
Proof.
  intros H Hg. induction H as [|[k0 g0] o Hp Ho IH]; simpl.
  - now repeat constructor.
  - destruct (String.eqb k k0); constructor; auto.
Qed.

Lemma CodeGroup_fold_record (found : list (string * Commit)) :
  CodeGroup (fold_left record_encounter found []).
Proof.
  split.
  - rewrite keys_fold_record, fold_Set_add. simpl.
    apply NoDup_filter, NoDup_distinct.
  - assert (G : forall m : JiraMap,
               Forall (fun p => snd p <> []) m ->
               Forall (fun p => snd p <> [])
                 (fold_left record_encounter found m)).
    { induction found as [|p f IH]; intros m Hm; simpl; [exact Hm|].
      apply IH. apply Forall_Object_set; [exact Hm|].
      destruct (Js.Object_get m (fst p)) as [g|]; [|discriminate].
      now destruct g. }
    apply G. constructor.
Qed.

(** ** Sorting *)

Lemma Permutation_sort_insert {A} (cmp : A -> A -> Z) (x : A) (l : list A) :
  Permutation (Js.sort_insert cmp x l) (x :: l).
Proof.
  induction l as [|y l IH]; simpl; [reflexivity|].
  destruct (0 <? cmp x y)%Z; [|reflexivity].
  rewrite IH. apply perm_swap.
Qed.

Lemma Permutation_Array_sort {A} (cmp : A -> A -> Z) (l : list A) :
  Permutation (Js.Array_sort cmp l) l.
Proof.
  induction l as [|x l IH]; simpl; [reflexivity|].
  now rewrite Permutation_sort_insert, IH.
Qed.

(** A sorted array stays as it is. *)
Lemma Array_sort_sorted {A} (cmp : A -> A -> Z) (l : list A) :
  StronglySorted (fun a b => (cmp a b <= 0)%Z) l -> Js.Array_sort cmp l = l.
Proof.
  induction 1 as [|x l Hl IH Hx]; simpl; [reflexivity|].
  rewrite IH. destruct l as [|y l]; simpl; [reflexivity|].
  inversion Hx as [|? ? Hy _]; subst.
  destruct (0 <? cmp x y)%Z eqn:E; [|reflexivity].
  apply Z.ltb_lt in E. lia.
Qed.

(** The group sorted by [by_date_descending] has its latest commits first. *)
Lemma sort_insert_by_date (x : Commit) (l : list Commit) :
  StronglySorted (fun a b => (date b <= date a)%Z) l ->
  StronglySorted (fun a b => (date b <= date a)%Z)
    (Js.sort_insert by_date_descending x l).
Proof.
  induction 1 as [|y l Hl IH Hy]; simpl.
  - repeat constructor.
  - unfold by_date_descending at 1.
    destruct (0 <? date y - date x)%Z eqn:E.
    + apply Z.ltb_lt in E. constructor; [exact IH|].
      rewrite (Permutation_sort_insert by_date_descending x l).
      constructor; [lia | exact Hy].
    + apply Z.ltb_ge in E. constructor; [now constructor|].
      constructor; [lia|].
      eapply Forall_impl; [|exact Hy]. simpl. intros; lia.
Qed.

Lemma Array_sort_by_date (l : list Commit) :
  StronglySorted (fun a b => (date b <= date a)%Z)
    (Js.Array_sort by_date_descending l).
Proof.
  induction l as [|x l IH]; simpl; [constructor|].
  now apply sort_insert_by_date.
Qed.

(** The first commit of the sorted group carries the maximum date. *)
Lemma first_sorted_max_date (group rest : list Commit) (first : Commit) :
  Js.Array_sort by_date_descending group = first :: rest ->
  max_date (date first) group.
Proof.
  intros E. pose proof (Permutation_Array_sort by_date_descending group) as P.
  pose proof (Array_sort_by_date group) as S. rewrite E in P, S. split.
  - apply in_map. apply (Permutation_in _ P). now left.
  - intros c Hc. apply (Permutation_in _ (Permutation_sym P)) in Hc.
    destruct Hc as [<- | Hc]; [lia|].
    inversion S as [|? ? _ Hf]; subst.
    rewrite Forall_forall in Hf. now apply Hf.
Qed.

(** ** The Metadata Fetcher and the Aggregator *)

(** The promise of [fetchJiraMetadata] is never rejected and never stays
    pending. *)
Lemma fetch_settles (c : string) (client : @Client Number) :
  exists r, fetchJiraMetadata c client = Fulfilled r.
Proof.
  unfold fetchJiraMetadata.
  destruct (findIssue client c) as [issue|e]; simpl; [|eauto].
  destruct (read_issue issue); simpl; eauto.
Qed.

Lemma settle_all_spec (jiraMap : JiraMap) (client : @Client Number)
  (order : list string) (jiraList : list (@IssueRecord Number)) :
  CodeGroup jiraMap ->
  (forall c, In c order -> In c (Js.Object_keys jiraMap)) ->
  exists l,
    settle_all jiraMap client order jiraList = Fulfilled (jiraList ++ l)
    /\ map code l = filter (fetched client) order
    /\ Forall (describes jiraMap client) l.
Proof.
  intros [_ Hne] Hin. revert jiraList.
  induction order as [|c order IH]; intros acc.
  - exists []. simpl. now rewrite app_nil_r.
  - assert (Hc : In c (Js.Object_keys jiraMap)) by (apply Hin; now left).
    assert (Hin' : forall c', In c' order -> In c' (Js.Object_keys jiraMap))
      by (intros; apply Hin; now right).
    specialize (IH Hin').
    cbn [settle_all filter]. unfold fetched at 1.
    destruct (fetch_settles c client) as [[metadata|] F];
      rewrite F; cbn [Promise_then push_jira].
    2: { destruct (IH acc) as (l & E & Hl & Hd). exists l. auto. }
    destruct (In_keys_get _ _ Hc) as [group G]. rewrite G.
    assert (Hg : group <> []).
    { apply Object_get_In in G. rewrite Forall_forall in Hne.
      exact (Hne _ G). }
    pose proof (Permutation_Array_sort by_date_descending group) as P.
    destruct (Js.Array_sort by_date_descending group) as [|first rest] eqn:S.
    { apply Permutation_nil in P. contradiction. }
    match goal with
    | |- context [settle_all _ _ _ (acc ++ [?r])] => set (record := r)
    end.
    destruct (IH (acc ++ [record])) as (l & E & Hl & Hd).
    exists (record :: l). rewrite E, <- app_assoc. simpl.
    repeat split; [congruence|]. constructor; [|exact Hd].
    exists group. subst record. simpl. repeat split; try assumption.
    + apply Permutation_length in P. simpl in P. now rewrite <- P.
    + eapply first_sorted_max_date; eassumption.
    + eapply first_sorted_max_date; eassumption.
    + exists (distinct (map author (first :: rest))).
      rewrite Set_from_distinct. repeat split.
      * apply NoDup_distinct.
      * rewrite In_distinct. apply Permutation_in. now apply Permutation_map.
      * rewrite In_distinct. apply Permutation_in.
        apply Permutation_map. now apply Permutation_sym.
Qed.

Lemma aggregate_spec (jiraMap : JiraMap) (client : @Client Number) :
  CodeGroup jiraMap ->
  exists jiraList,
    aggregateJiraMetadata jiraMap client = Fulfilled jiraList
    /\ map code jiraList
       = filter (fetched client)
           (settle_order client (Js.Object_keys jiraMap))
    /\ Forall (describes jiraMap client) jiraList.
Proof.
  intros H. unfold aggregateJiraMetadata.
  destruct (settle_all_spec jiraMap client
              (settle_order client (Js.Object_keys jiraMap)) [] H)
    as (l & E & Hl & Hd).
  - intros c. apply Permutation_in. apply Permutation_Array_sort.
  - rewrite E. exists l. auto.
Qed.

(** ** The matches are codes *)

Local Open Scope string_scope.

Lemma exec_match (R R' : RegExp.t) (s : string) (i e : nat) :
  RegExp.exec R s = (Some (i, e), R') ->
  RegExp.matcher (RegExp.source R) (JsString.drop i s) = Some (e - i).
Proof.
  unfold RegExp.exec.
  destruct (String.length s <? RegExp.lastIndex R)%nat; [discriminate|].
  destruct (RegExp.scan _ _ _) as [[a b]|] eqn:E; [|discriminate].
  intros [= -> -> _]. apply scan_some in E as (j & -> & _ & Hm & _).
  now rewrite drop_drop in Hm.
Qed.

Lemma match_loop_code_text (fuel : nat) (R : RegExp.t) (s m : string) :
  RegExp.source R = RegExp.jira_pattern ->
  In m (RegExp.match_loop fuel R s) -> code_text m.
Proof.
  revert R; induction fuel as [|fuel IH]; intros R HR; simpl; [tauto|].
  destruct (RegExp.exec R s) as [[[i e]|] R'] eqn:E; [|simpl; tauto].
  pose proof (exec_match _ _ _ _ _ E) as Hm. rewrite HR in Hm.
  apply exec_some in E as (_ & _ & ->).
  intros [<- | Hin].
  - apply (matcher_sound _ _ Hm).
  - apply IH in Hin; [exact Hin|]. now destruct (e =? i)%nat.
Qed.

Lemma jiras_of_code_text (c : Commit) (jira : string) :
  In jira (jiras_of c) -> code_text jira.
Proof.
  unfold jiras_of, RegExp.String_match.
  destruct (RegExp.match_loop _ _ _) as [|m l] eqn:E; [simpl; tauto|].
  rewrite <- E. apply match_loop_code_text. reflexivity.
Qed.

Lemma toUpperCase_append (a b : string) :
  JsString.toUpperCase (a ++ b)
  = JsString.toUpperCase a ++ JsString.toUpperCase b.
Proof. induction a; simpl; congruence. Qed.

Lemma upper_char_class (c : ascii) :
  (JsString.is_word c = true -> JsString.is_word (JsString.upper_char c) = true)
  /\ (JsString.is_digit c = true ->
      JsString.is_digit (JsString.upper_char c) = true).
Proof.
  destruct c as [[] [] [] [] [] [] [] []]; vm_compute; split; trivial.
Qed.

Lemma all_toUpperCase (w : string) :
  (JsString.all JsString.is_word w = true ->
   JsString.all JsString.is_word (JsString.toUpperCase w) = true)
  /\ (JsString.all JsString.is_digit w = true ->
      JsString.all JsString.is_digit (JsString.toUpperCase w) = true).
Proof.
  induction w as [|c w [IHw IHd]]; simpl; [tauto|].
  rewrite !andb_true_iff. destruct (upper_char_class c) as [Hw Hd].
  split; intros [Hc Hr]; auto.
Qed.

(** A code in upper case is still a text of the pattern: it holds a hyphen,
    so it is no array index and no name of an inherited property, and the
    keys of the mapping are listed in the order of their creation. *)
Lemma toUpperCase_code_text (m : string) :
  code_text m -> code_text (JsString.toUpperCase m).
Proof.
  intros (w & d & -> & Hw & Hww & Hd & Hdd).
  exists (JsString.toUpperCase w), (JsString.toUpperCase d).
  rewrite !toUpperCase_append. repeat split.
  - now destruct w.
  - now apply all_toUpperCase.
  - now destruct d.
  - now apply all_toUpperCase.
Qed.

Lemma encounters_code_text (commits : list Commit) (p : string * Commit) :
  In p (encounters commits) -> code_text (fst p).
Proof.
  unfold encounters. rewrite in_flat_map. intros (c & _ & Hp).
  apply in_map_iff in Hp as (jira & <- & Hj).
  apply toUpperCase_code_text. now apply jiras_of_code_text in Hj.
Qed.

Local Open Scope list_scope.

(** ** The Code Extractor: claims *)

Lemma extract_and_group_run (commits : list Commit) (h : Heap) :
  fst (extract_and_group commits h)
  = fold_left record_encounter
      (encounters
         (fst (filter_from (RegExp.literal RegExp.jira_pattern) commits))) [].
Proof.
  unfold extract_and_group, bind.
  rewrite filterMissingJiras_run, mapCommitsToJiras_run. reflexivity.
Qed.

(** The commits that [filterMissingJiras] keeps are commits of the input
    whose summary contains a code: a commit without a code is excluded. *)
Lemma filterMissingJiras_sound (commits : list Commit) (h : Heap) (c : Commit) :
  In c (fst (filterMissingJiras commits h)) ->
  In c commits /\ contains_code (summary c).
Proof.
  rewrite filterMissingJiras_run. apply filter_from_sound. reflexivity.
Qed.

(** The first commit is tested by a RegExp object that has not been used:
    it is kept exactly when its summary contains a code. *)
Lemma filterMissingJiras_first (c : Commit) (commits : list Commit) (h : Heap) :
  hd_error (fst (filterMissingJiras (c :: commits) h)) = Some c
  <-> contains_code (summary c).
Proof.
  split.
  - intros E. apply (filterMissingJiras_sound (c :: commits) h).
    destruct (fst (filterMissingJiras (c :: commits) h)); [discriminate|].
    injection E as ->. now left.
  - intros Hc. apply test_literal_iff in Hc.
    rewrite filterMissingJiras_run. cbn [filter_from].
    destruct (RegExp.test _ (summary c)) as [keep R'].
    destruct (filter_from R' commits) as [rest R'']. cbn [fst] in *.
    now subst keep.
Qed.

(** C3 (code defect).  The filter step does not keep every commit with a
    code: [regex] carries the global flag, so [test] resumes at the
    [lastIndex] the previous commit left.  After the match in "ABC-1",
    [lastIndex] is 5, the search in "DEF-2" starts at its end, and the second
    commit is dropped although its summary is a code. *)
Theorem filterMissingJiras_drops_commit_with_code (h : Heap) :
  contains_code (summary second_commit)
  /\ fst (filterMissingJiras [first_commit; second_commit] h) = [first_commit].
Proof.
  split.
  - exists EmptyString, "DEF-2", EmptyString. split; [reflexivity|].
    exists "DEF", "2". repeat split; discriminate.
  - rewrite filterMissingJiras_run. reflexivity.
Qed.

(** The group step on its own: every match of the pattern in the summary of
    every commit, in upper case, is a key, and its group is the list of the
    commits encountered with the code, one entry for each occurrence. *)
Lemma mapCommitsToJiras_groups_matches (commits : list Commit) (h : Heap)
  (c : Commit) (jira : string) :
  In c commits -> In jira (jiras_of c) ->
  let code := JsString.toUpperCase jira in
  let jiraMap := fst (mapCommitsToJiras commits h) in
  In code (Js.Object_keys jiraMap)
  /\ Js.Object_get jiraMap code = Some (commits_of code (encounters commits))
  /\ In c (commits_of code (encounters commits)).
Proof.
  intros Hc Hj code jiraMap.
  assert (E : In (code, c) (encounters commits)).
  { unfold encounters. apply in_flat_map. exists c. split; [exact Hc|].
    apply in_map_iff. now exists jira. }
  assert (K : In c (commits_of code (encounters commits))).
  { unfold commits_of. apply in_map_iff. exists (code, c).
    split; [reflexivity|]. apply filter_In. split; [exact E|].
    apply String.eqb_refl. }
  subst jiraMap. rewrite mapCommitsToJiras_run. cbn [fst].
  rewrite keys_fold_record, fold_Set_add, get_fold_record. simpl.
  repeat split.
  - rewrite filter_all by reflexivity. apply In_distinct.
    apply in_map_iff. now exists (code, c).
  - now destruct (commits_of code (encounters commits)).
  - exact K.
Qed.

(** C4 (code defect, the one of C3).  After the filter step and the group
    step, a match in the summary of a commit can be missing from the keys:
    the filter step drops the second commit, so its code "DEF-2" is no key
    of the mapping. *)
Theorem extract_and_group_misses_code (h : Heap) :
  In "DEF-2" (jiras_of second_commit)
  /\ Js.Object_get
       (fst (extract_and_group [first_commit; second_commit] h))
       (JsString.toUpperCase "DEF-2") = None
  /\ Js.Object_keys (fst (extract_and_group [first_commit; second_commit] h))
     = ["ABC-1"].
Proof.
  rewrite extract_and_group_run. split; [now left | split; reflexivity].
Qed.

(** C7.  The keys of the mapping of [mapCommitsToJiras] are the distinct
    codes in the order in which they are first encountered, and the group of
    a code lists the commits encountered with it in the order of the
    encounters. *)
Theorem mapCommitsToJiras_insertion_order (commits : list Commit) (h : Heap) :
  let jiraMap := fst (mapCommitsToJiras commits h) in
  Js.Object_keys jiraMap = distinct (map fst (encounters commits))
  /\ forall code,
       Js.Object_get jiraMap code
       = match commits_of code (encounters commits) with
         | [] => None
         | group => Some group
         end.
Proof.
  intros jiraMap. subst jiraMap. rewrite mapCommitsToJiras_run. cbn [fst].
  split.
  - rewrite keys_fold_record, fold_Set_add. simpl. now apply filter_all.
  - intros code. rewrite get_fold_record. simpl.
    now destruct (commits_of code (encounters commits)).
Qed.

(** Every key of the mapping is a code. *)
Lemma mapCommitsToJiras_keys_are_codes (commits : list Commit) (h : Heap)
  (k : string) :
  In k (Js.Object_keys (fst (mapCommitsToJiras commits h))) -> code_text k.
Proof.
  rewrite mapCommitsToJiras_run. cbn [fst].
  rewrite keys_fold_record, fold_Set_add. simpl.
  rewrite filter_all by reflexivity.
  rewrite In_distinct, in_map_iff. intros (p & <- & Hp).
  now apply encounters_code_text in Hp.
Qed.

(** C9.  Extraction and grouping run twice on the same commits give the same
    mapping: every run evaluates its regular expression literals anew, so the
    [lastIndex] that the first run leaves behind is not seen by the second. *)
Theorem extract_and_group_twice_same (commits : list Commit) (h : Heap) :
  exists jiraMap, fst (extract_and_group_twice commits h) = (jiraMap, jiraMap).
Proof.
  unfold extract_and_group_twice, bind, ret.
  pose proof (extract_and_group_run commits h) as E1.
  destruct (extract_and_group commits h) as [first h1].
  pose proof (extract_and_group_run commits h1) as E2.
  destruct (extract_and_group commits h1) as [second h2].
  simpl in *. exists first. congruence.
Qed.

(** ** The Aggregator: claims *)

Lemma Permutation_filter {A} (f : A -> bool) (l l' : list A) :
  Permutation l l' -> Permutation (filter f l) (filter f l').
Proof.
  induction 1 as [|x l l' _ IH|x y l|l l' l'' _ IH1 _ IH2]; simpl.
  - constructor.
  - destruct (f x); [now constructor | exact IH].
  - destruct (f x), (f y); try reflexivity. apply perm_swap.
  - now transitivity (filter f l').
Qed.

Lemma settle_order_in_request_order (client : @Client Number) (codes : list string) :
  settles_in_request_order client codes -> settle_order client codes = codes.
Proof.
  intros S. apply Array_sort_sorted.
  induction S as [|c l _ IH Hc]; constructor; [exact IH|].
  eapply Forall_impl; [|exact Hc]. simpl. intros; lia.
Qed.

Lemma push_jira_normal (jiraMap : JiraMap) (c : string)
  (metadata : @IssueMetadata Number) (jiraList : list IssueRecord) :
  CodeGroup jiraMap -> In c (Js.Object_keys jiraMap) ->
  exists r, push_jira jiraMap c (Some metadata) jiraList = Normal (jiraList ++ [r]).
Proof.
  intros [_ Hne] Hc. unfold push_jira.
  destruct (In_keys_get _ _ Hc) as [group G]. rewrite G.
  pose proof (Permutation_Array_sort by_date_descending group) as P.
  destruct (Js.Array_sort by_date_descending group) as [|first rest]; [|eauto].
  apply Permutation_nil in P. subst group.
  apply Object_get_In in G. rewrite Forall_forall in Hne.
  now destruct (Hne _ G).
Qed.

(** C1.  Every record that [aggregateJiraMetadata] returns for a CodeGroup
    mapping belongs to a code whose lookup succeeded; its [commits] is the
    number of entries of the group of that code, its [lastCommitDate] is the
    maximum date among the commits of the group, and its [developers] is the
    list, joined with ", ", of names without duplicates whose elements are
    exactly the authors of the group. *)
Theorem aggregate_record_statistics (jiraMap : JiraMap) (client : @Client Number) :
  CodeGroup jiraMap ->
  exists jiraList,
    aggregateJiraMetadata jiraMap client = Fulfilled jiraList
    /\ forall r, In r jiraList ->
         exists group,
           Js.Object_get jiraMap (code r) = Some group
           /\ fetchJiraMetadata (code r) client = Fulfilled (Some (jira r))
           /\ commits r = List.length group
           /\ max_date (lastCommitDate r) group
           /\ exists names,
                developers r = Js.Array_join ", " names
                /\ NoDup names
                /\ forall a, In a names <-> In a (map author group).
Proof.
  intros G. destruct (aggregate_spec jiraMap client G) as (l & E & _ & D).
  exists l. split; [exact E|]. intros r Hr.
  rewrite Forall_forall in D. exact (D r Hr).
Qed.

(** C2.  For a CodeGroup mapping and any outcome of the lookups,
    [aggregateJiraMetadata] returns no record for a code whose lookup ended
    with [null], and the length of its list is the number of keys whose
    lookup succeeded. *)
Theorem aggregate_omits_failed_lookups (jiraMap : JiraMap) (client : @Client Number) :
  CodeGroup jiraMap ->
  exists jiraList,
    aggregateJiraMetadata jiraMap client = Fulfilled jiraList
    /\ (forall c, fetchJiraMetadata c client = Fulfilled None ->
                  ~ In c (map code jiraList))
    /\ List.length jiraList
       = List.length (filter (fetched client) (Js.Object_keys jiraMap)).
Proof.
  intros G. destruct (aggregate_spec jiraMap client G) as (l & E & K & _).
  exists l. split; [exact E|]. split.
  - intros c F. rewrite K, filter_In. unfold fetched. rewrite F.
    now intros [_ ?].
  - rewrite <- (length_map code), K. apply Permutation_length.
    apply Permutation_filter. apply Permutation_Array_sort.
Qed.

(** C6 (as amended).  The records of [aggregateJiraMetadata] are in the order
    in which the lookups settle: the codes of the records are the keys whose
    lookup succeeded, in settling order, which is a permutation of the order
    of the keys.  When the lookups settle in the order in which they were
    requested, the records are in the order of the keys. *)
Theorem aggregate_in_settling_order (jiraMap : JiraMap) (client : @Client Number) :
  CodeGroup jiraMap ->
  exists jiraList,
    aggregateJiraMetadata jiraMap client = Fulfilled jiraList
    /\ map code jiraList
       = filter (fetched client) (settle_order client (Js.Object_keys jiraMap))
    /\ Permutation (settle_order client (Js.Object_keys jiraMap))
         (Js.Object_keys jiraMap)
    /\ (settles_in_request_order client (Js.Object_keys jiraMap) ->
        map code jiraList = filter (fetched client) (Js.Object_keys jiraMap)).
Proof.
  intros G. destruct (aggregate_spec jiraMap client G) as (l & E & K & _).
  exists l. repeat split; try assumption.
  - apply Permutation_Array_sort.
  - intros S. now rewrite K, settle_order_in_request_order.
Qed.

(** C10.  Every group of the mapping of [mapCommitsToJiras] holds a commit;
    so, for such a mapping, the callback of [aggregateJiraMetadata] finds a
    first element in every sorted group, and the aggregation is fulfilled. *)
Theorem mapCommitsToJiras_groups_nonempty (commits : list Commit) (h : Heap)
  (client : @Client Number) :
  let jiraMap := fst (mapCommitsToJiras commits h) in
  Forall (fun p => snd p <> []) jiraMap
  /\ (forall c (metadata : @IssueMetadata Number) jiraList,
        In c (Js.Object_keys jiraMap) ->
        exists r,
          push_jira jiraMap c (Some metadata) jiraList = Normal (jiraList ++ [r]))
  /\ exists jiraList, aggregateJiraMetadata jiraMap client = Fulfilled jiraList.
Proof.
  intros jiraMap.
  assert (G : CodeGroup jiraMap).
  { subst jiraMap. rewrite mapCommitsToJiras_run. apply CodeGroup_fold_record. }
  split; [apply G|]. split.
  - intros c metadata jiraList Hc. now apply push_jira_normal.
  - destruct (aggregate_spec jiraMap client G) as (l & E & _). eauto.
Qed.

(** ** The Metadata Fetcher: claims *)

Lemma Call_map_names (versions : list string) :
  Call_map
    (JArray (map (fun v => JObject [("name", @JString Number v)]) versions))
    (fun fv => Get fv "name")
  = Normal (map JString versions).
Proof.
  simpl. induction versions as [|v vs IH]; simpl; [reflexivity|].
  now rewrite IH.
Qed.

Lemma Array_join_values_strings (sep : string) (l : list string) :
  Array_join_values sep (map (@JString Number) l) = Normal (Js.Array_join sep l).
Proof.
  induction l as [|x l IH]; [reflexivity|].
  cbn [map Array_join_values Js.Array_join ToString Completion_bind].
  destruct l as [|y l]; [reflexivity|].
  cbn [map] in *. rewrite IH. reflexivity.
Qed.

(** The record read from an issue as the tracker sends it. *)
Lemma read_issue_tracker_issue (summary status : string)
  (versions : list string) (assignee : option string) :
  read_issue (tracker_issue summary status versions assignee)
  = Normal
      {| title := JString summary;
         status := JString status;
         fixVersions :=
           match versions with
           | [] => "No Fix Version"
           | _ =>
               if String.eqb (Js.Array_join ", " versions) EmptyString
               then "No Fix Version"
               else Js.Array_join ", " versions
           end;
         assignee :=
           match assignee with
           | Some displayName => JString displayName
           | None => JString "Unassigned"
           end |}.
Proof.
  unfold read_issue, tracker_issue, issue_field.
  cbn [Get Js.Object_get String.eqb Ascii.eqb Bool.eqb Completion_bind].
  rewrite Call_map_names. cbn [Completion_bind].
  rewrite Array_join_values_strings. cbn [Completion_bind].
  destruct assignee as [displayName|], versions as [|v vs]; reflexivity.
Qed.

(** C5.  The promise of [fetchJiraMetadata] is always fulfilled: with [null]
    when the lookup is rejected or the response cannot be read, and with the
    record [{title, status, fixVersions, assignee}] otherwise, in which
    [fixVersions] is "No Fix Version" when the issue has no fix versions and
    [assignee] is "Unassigned" when the assignee is [null] (or any other
    value that counts as false). *)
Theorem fetchJiraMetadata_contract (c : string) (client : @Client Number) :
  (exists r, fetchJiraMetadata c client = Fulfilled r)
  /\ (forall e,
        findIssue client c = Rejects e ->
        fetchJiraMetadata c client = Fulfilled None)
  /\ (forall issue e,
        findIssue client c = Resolves issue -> read_issue issue = Throw e ->
        fetchJiraMetadata c client = Fulfilled None)
  /\ (forall issue metadata,
        findIssue client c = Resolves issue ->
        read_issue issue = Normal metadata ->
        fetchJiraMetadata c client = Fulfilled (Some metadata)
        /\ issue_field issue "summary" = Normal (title metadata)
        /\ (issue_field issue "fixVersions" = Normal (JArray []) ->
            fixVersions metadata = "No Fix Version")
        /\ (forall a,
              issue_field issue "assignee" = Normal a ->
              ToBoolean a = false ->
              assignee metadata = JString "Unassigned")).
Proof.
  split; [apply fetch_settles|].
  unfold fetchJiraMetadata. split; [|split].
  - intros e ->. reflexivity.
  - intros issue e -> E. simpl. now rewrite E.
  - intros issue metadata -> Hr. split; [simpl; now rewrite Hr|].
    unfold read_issue in Hr.
    destruct (issue_field issue "summary") as [t|]; [|discriminate].
    destruct (issue_field issue "status") as [st|]; [|discriminate].
    cbn [Completion_bind] in Hr.
    destruct (Get st "name") as [st'|]; [|discriminate].
    destruct (issue_field issue "fixVersions") as [vs|]; [|discriminate].
    cbn [Completion_bind] in Hr.
    destruct (Call_map vs _) as [names|] eqn:Hn; [|discriminate].
    cbn [Completion_bind] in Hr.
    destruct (Array_join_values ", " names) as [joined|] eqn:Hj;
      [|discriminate].
    destruct (issue_field issue "assignee") as [a|]; [|discriminate].
    cbn [Completion_bind] in Hr.
    assert (Hm : exists a',
               metadata = {| title := t; status := st';
                             fixVersions :=
                               if String.eqb joined EmptyString
                               then "No Fix Version" else joined;
                             assignee := a' |}
               /\ (ToBoolean a = false -> a' = JString "Unassigned")).
    { destruct (ToBoolean a); cbn [Completion_bind] in Hr.
      - destruct (Get a "displayName") as [d|]; [|discriminate].
        injection Hr as <-. eexists. split; [reflexivity | discriminate].
      - injection Hr as <-. eexists. split; reflexivity. }
    destruct Hm as (a' & -> & Ha'). cbn [title fixVersions assignee].
    split; [reflexivity|]. split.
    + intros [= ->]. simpl in Hn. injection Hn as <-.
      simpl in Hj. injection Hj as <-. reflexivity.
    + intros a0 [= <-]. exact Ha'.
Qed.

(** ** commands.js: claims *)

(** The walk fails when nodegit rejects it or finds no commit. *)
Lemma getCommitsUntil_rejected (hash repo : string) (e : Error) :
  getCommitsUntil env hash repo = Rejected e
  <-> revwalk env repo hash = Rejects e
      \/ (revwalk env repo hash = Resolves []
          /\ e = {| name := "Error";
                    message := "Current repo does not exist or contains no commits" |}).
Proof.
  unfold getCommitsUntil.
  destruct (revwalk env repo hash) as [[|c cs]|e']; simpl; split.
  - intros [= <-]. now right.
  - intros [K | [_ ->]]; [discriminate | reflexivity].
  - discriminate.
  - intros [K | [K _]]; discriminate.
  - intros [= <-]. now left.
  - intros [[= ->] | [K _]]; [reflexivity | discriminate].
Qed.

(** C8 (code defect).  When the walk of the commits fails, [listJira] prints
    the message of the error, and the report step runs with [undefined]:
    [jiraList.forEach] throws a TypeError before anything is printed.  No
    table is written, not even an empty one, and the promise chain ends
    rejected. *)
Theorem listJira_traversal_failure (args : Args) (w : @World Number)
  (e : Error) :
  getCommitsUntil env (commit args) "." = Rejected e ->
  listJira env args w
  = (Rejected
       (TypeError "Cannot read properties of undefined, reading forEach"),
     {| regexps := regexps w; stdout := stdout w ++ [Line (message e)] |}).
Proof.
  intros E. unfold listJira. rewrite E. reflexivity.
Qed.

(** * Further properties *)

(** ** The filter step *)

Lemma test_source (R R' : RegExp.t) (s : string) (b : bool) :
  RegExp.test R s = (b, R') -> RegExp.source R' = RegExp.source R.
Proof.
  unfold RegExp.test, RegExp.exec.
  destruct (_ <? _)%nat; [now intros [= _ <-]|].
  destruct (RegExp.scan _ _ _) as [[i e]|]; now intros [= _ <-].
Qed.

(** A test that fails leaves [lastIndex] at 0. *)
Lemma test_false_resets (R R' : RegExp.t) (s : string) :
  RegExp.test R s = (false, R') -> R' = RegExp.set_lastIndex R 0.
Proof.
  unfold RegExp.test, RegExp.exec.
  destruct (_ <? _)%nat; [now intros [= <-]|].
  destruct (RegExp.scan _ _ _) as [[i e]|]; [discriminate | now intros [= <-]].
Qed.

Lemma filter_from_adjacent (pre post : list Commit) (c1 c2 : Commit)
  (R : RegExp.t) :
  RegExp.source R = RegExp.jira_pattern ->
  contains_code (summary c1) -> contains_code (summary c2) ->
  In c1 (fst (filter_from R (pre ++ c1 :: c2 :: post)))
  \/ In c2 (fst (filter_from R (pre ++ c1 :: c2 :: post))).
Proof.
  intros HR H1 H2. revert R HR. induction pre as [|c pre IH]; intros R HR.
  - cbn [app filter_from].
    destruct (RegExp.test R (summary c1)) as [keep R'] eqn:T1.
    destruct (RegExp.test R' (summary c2)) as [keep' R''] eqn:T2.
    destruct (filter_from R'' post) as [rest R3]. cbn [fst].
    destruct keep; [left; now left|]. right.
    apply test_false_resets in T1. subst R'.
    assert (K : fst (RegExp.test (RegExp.set_lastIndex R 0) (summary c2)) = true).
    { unfold RegExp.set_lastIndex. rewrite HR. apply test_true_iff.
      split; [lia | exact H2]. }
    rewrite T2 in K. cbn [fst] in K. subst keep'. now left.
  - cbn [app filter_from].
    destruct (RegExp.test R (summary c)) as [keep R'] eqn:T.
    assert (HR' : RegExp.source R' = RegExp.jira_pattern)
      by (rewrite (test_source _ _ _ _ T); exact HR).
    specialize (IH R' HR').
    destruct (filter_from R' (pre ++ c1 :: c2 :: post)) as [rest R'']. cbn [fst] in *.
    destruct keep; simpl; tauto.
Qed.

(** Of two neighbouring commits whose summaries both hold a code, the filter
    step keeps at least one: a test that fails resets [lastIndex], so the
    commit after a dropped one is searched from its start. *)
Theorem filterMissingJiras_keeps_one_of_two (pre post : list Commit)
  (c1 c2 : Commit) (h : Heap) :
  contains_code (summary c1) -> contains_code (summary c2) ->
  In c1 (fst (filterMissingJiras (pre ++ c1 :: c2 :: post) h))
  \/ In c2 (fst (filterMissingJiras (pre ++ c1 :: c2 :: post) h)).
Proof.
  intros H1 H2. rewrite filterMissingJiras_run. cbn [fst].
  now apply filter_from_adjacent.
Qed.

Lemma filter_from_length (commits : list Commit) (R : RegExp.t) :
  List.length (fst (filter_from R commits)) <= List.length commits.
Proof.
  revert R; induction commits as [|c cs IH]; intros R; simpl; [lia|].
  destruct (RegExp.test R (summary c)) as [keep R'].
  specialize (IH R'). destruct (filter_from R' cs) as [rest R''].
  destruct keep; simpl in *; lia.
Qed.

(** The filter step only removes, and what it keeps holds a code: its
    result is no longer than its input, and every commit of the result is a
    commit of the input whose summary contains a code. *)
Theorem filterMissingJiras_only_removes (commits : list Commit) (h : Heap) :
  List.length (fst (filterMissingJiras commits h)) <= List.length commits
  /\ forall c,
       In c (fst (filterMissingJiras commits h)) ->
       In c commits /\ contains_code (summary c).
Proof.
  rewrite filterMissingJiras_run. cbn [fst]. split.
  - apply filter_from_length.
  - intros c. now apply filter_from_sound.
Qed.

(** ** The matches of a summary *)

Lemma match_loop_occurs (fuel : nat) (R : RegExp.t) (s m : string) :
  In m (RegExp.match_loop fuel R s) ->
  exists pre post, s = (pre ++ m ++ post)%string.
Proof.
  revert R; induction fuel as [|fuel IH]; intros R; simpl; [tauto|].
  destruct (RegExp.exec R s) as [[[i e]|] R']; [|simpl; tauto].
  intros [<- | Hin]; [|eapply IH; exact Hin].
  exists (JsString.take i s), (JsString.drop (e - i) (JsString.drop i s)).
  unfold JsString.slice. now rewrite !take_drop.
Qed.

(** Every match that [mapCommitsToJiras] reads from a summary is a text of
    the pattern that occurs in the summary. *)
Theorem jiras_occur_in_summary (c : Commit) (jira : string) :
  In jira (jiras_of c) ->
  code_text jira /\ exists pre post, summary c = (pre ++ jira ++ post)%string.
Proof.
  intros Hj. split; [now apply (jiras_of_code_text c)|].
  revert Hj. unfold jiras_of, RegExp.String_match.
  destruct (RegExp.match_loop _ _ _) as [|m l] eqn:E; [simpl; tauto|].
  rewrite <- E. apply match_loop_occurs.
Qed.

(** A summary has a match exactly when a RegExp object that has not been
    used tests it positively. *)
Lemma jiras_of_nil_iff (c : Commit) : jiras_of c = [] <-> has_code c = false.
Proof.
  unfold jiras_of, has_code, RegExp.String_match, RegExp.test.
  cbn [RegExp.match_loop].
  change (RegExp.set_lastIndex (RegExp.literal RegExp.jira_pattern) 0)
    with (RegExp.literal RegExp.jira_pattern).
  destruct (RegExp.exec _ (summary c)) as [[[i e]|] R']; cbn [fst];
    split; try reflexivity; discriminate.
Qed.

Lemma has_code_iff (c : Commit) :
  has_code c = true <-> contains_code (summary c).
Proof. apply test_literal_iff. Qed.

(** ** The group step *)

Lemma mapCommitsToJiras_get (commits : list Commit) (h : Heap) (k : string) :
  Js.Object_get (fst (mapCommitsToJiras commits h)) k
  = match commits_of k (encounters commits) with
    | [] => None
    | group => Some group
    end.
Proof.
  rewrite mapCommitsToJiras_run. cbn [fst]. rewrite get_fold_record. simpl.
  now destruct (commits_of k (encounters commits)).
Qed.

Lemma mapCommitsToJiras_keys (commits : list Commit) (h : Heap) :
  Js.Object_keys (fst (mapCommitsToJiras commits h))
  = distinct (map fst (encounters commits)).
Proof.
  rewrite mapCommitsToJiras_run. cbn [fst].
  rewrite keys_fold_record, fold_Set_add. simpl. now apply filter_all.
Qed.

Lemma group_of_mapCommitsToJiras (commits : list Commit) (h : Heap)
  (k : string) :
  group_of (fst (mapCommitsToJiras commits h)) k
  = commits_of k (encounters commits).
Proof.
  unfold group_of. rewrite mapCommitsToJiras_get.
  now destruct (commits_of k (encounters commits)).
Qed.

Lemma In_commits_of (k : string) (c : Commit) (found : list (string * Commit)) :
  In c (commits_of k found) <-> In (k, c) found.
Proof.
  unfold commits_of. rewrite in_map_iff. split.
  - intros ([k' c'] & <- & Hp). apply filter_In in Hp as [Hp E].
    simpl in E. apply String.eqb_eq in E. now subst.
  - intros Hp. exists (k, c). split; [reflexivity|].
    apply filter_In. split; [exact Hp | apply String.eqb_refl].
Qed.

Lemma In_encounters (k : string) (c : Commit) (commits : list Commit) :
  In (k, c) (encounters commits)
  <-> In c commits
      /\ exists jira, In jira (jiras_of c) /\ JsString.toUpperCase jira = k.
Proof.
  unfold encounters. rewrite in_flat_map. split.
  - intros (c' & Hc & Hp). apply in_map_iff in Hp as (jira & [= <- <-] & Hj).
    eauto.
  - intros (Hc & jira & Hj & <-). exists c. split; [exact Hc|].
    apply in_map_iff. now exists jira.
Qed.

(** A commit of the input is in a group of the mapping exactly when its
    summary contains a code. *)
Theorem mapCommitsToJiras_groups_commits_with_code (commits : list Commit)
  (h : Heap) (c : Commit) :
  In c commits ->
  (contains_code (summary c)
   <-> exists k, In c (group_of (fst (mapCommitsToJiras commits h)) k)).
Proof.
  intros Hc. rewrite <- has_code_iff. split.
  - intros K. destruct (jiras_of c) as [|jira l] eqn:E.
    + apply jiras_of_nil_iff in E. congruence.
    + exists (JsString.toUpperCase jira).
      rewrite group_of_mapCommitsToJiras, In_commits_of, In_encounters.
      split; [exact Hc|]. exists jira. rewrite E. split; [now left | reflexivity].
  - intros (k & Hk).
    rewrite group_of_mapCommitsToJiras, In_commits_of, In_encounters in Hk.
    destruct Hk as (_ & jira & Hj & _).
    destruct (has_code c) eqn:K; [reflexivity|].
    apply jiras_of_nil_iff in K. rewrite K in Hj. destruct Hj.
Qed.

Lemma encounters_filter_has_code (commits : list Commit) :
  encounters (filter has_code commits) = encounters commits.
Proof.
  unfold encounters. induction commits as [|c cs IH]; simpl; [reflexivity|].
  destruct (has_code c) eqn:K; simpl; rewrite IH; [reflexivity|].
  apply jiras_of_nil_iff in K. now rewrite K.
Qed.

(** [mapCommitsToJiras] ignores the commits without a code: the mapping of a
    sequence of commits is the mapping of its commits that hold a code. *)
Theorem mapCommitsToJiras_ignores_commits_without_code
  (commits : list Commit) (h h' : Heap) :
  fst (mapCommitsToJiras (filter has_code commits) h')
  = fst (mapCommitsToJiras commits h).
Proof.
  rewrite !mapCommitsToJiras_run. cbn [fst].
  now rewrite encounters_filter_has_code.
Qed.

Lemma upper_char_idempotent (c : ascii) :
  JsString.upper_char (JsString.upper_char c) = JsString.upper_char c.
Proof. destruct c as [[] [] [] [] [] [] [] []]; reflexivity. Qed.

Lemma toUpperCase_idempotent (s : string) :
  JsString.toUpperCase (JsString.toUpperCase s) = JsString.toUpperCase s.
Proof.
  induction s as [|c s IH]; simpl; [reflexivity|].
  now rewrite upper_char_idempotent, IH.
Qed.

(** Every key of the mapping is a text of the pattern in upper case; two
    matches that differ only in case share one group. *)
Theorem mapCommitsToJiras_keys_upper_case (commits : list Commit) (h : Heap)
  (k : string) :
  In k (Js.Object_keys (fst (mapCommitsToJiras commits h))) ->
  code_text k /\ JsString.toUpperCase k = k.
Proof.
  rewrite mapCommitsToJiras_keys, In_distinct, in_map_iff.
  intros ([k' c] & <- & Hp). split.
  - now apply encounters_code_text in Hp.
  - apply In_encounters in Hp as (_ & jira & _ & <-).
    apply toUpperCase_idempotent.
Qed.

Lemma group_entries_record (jiraMap : JiraMap) (p : string * Commit) :
  group_entries (record_encounter jiraMap p) = S (group_entries jiraMap).
Proof.
  unfold record_encounter, group_entries.
  induction jiraMap as [|[k0 g0] m IH]; simpl; [reflexivity|].
  rewrite (String.eqb_sym (fst p) k0).
  destruct (String.eqb k0 (fst p)) eqn:E; simpl.
  - rewrite length_app. simpl. lia.
  - rewrite IH. lia.
Qed.

(** No match is lost and none is counted twice: the groups of the mapping
    hold as many entries as the summaries of the commits have matches. *)
Theorem mapCommitsToJiras_counts_matches (commits : list Commit) (h : Heap) :
  group_entries (fst (mapCommitsToJiras commits h))
  = list_sum (map (fun c => List.length (jiras_of c)) commits).
Proof.
  rewrite mapCommitsToJiras_run. cbn [fst].
  assert (G : forall found m,
             group_entries (fold_left record_encounter found m)
             = group_entries m + List.length found).
  { induction found as [|p f IH]; intros m; simpl; [lia|].
    rewrite IH, group_entries_record. lia. }
  rewrite G. unfold group_entries at 1. simpl.
  unfold encounters. induction commits as [|c cs IH]; simpl; [reflexivity|].
  now rewrite length_app, length_map, IH.
Qed.

Lemma encounters_app (a b : list Commit) :
  encounters (a ++ b) = encounters a ++ encounters b.
Proof. unfold encounters. apply flat_map_app. Qed.

(** The mapping of two sequences of commits one after the other: the group
    of a code is its group in the first followed by its group in the second,
    and the keys are those of the first followed by the new ones of the
    second. *)
Theorem mapCommitsToJiras_app (a b : list Commit) (h : Heap) :
  (forall k,
     group_of (fst (mapCommitsToJiras (a ++ b) h)) k
     = group_of (fst (mapCommitsToJiras a h)) k
       ++ group_of (fst (mapCommitsToJiras b h)) k)
  /\ Js.Object_keys (fst (mapCommitsToJiras (a ++ b) h))
     = Js.Object_keys (fst (mapCommitsToJiras a h))
       ++ filter
            (fun k =>
               negb (existsb (String.eqb k)
                       (Js.Object_keys (fst (mapCommitsToJiras a h)))))
            (Js.Object_keys (fst (mapCommitsToJiras b h))).
Proof.
  split.
  - intros k. rewrite !group_of_mapCommitsToJiras, encounters_app.
    unfold commits_of. now rewrite filter_app, map_app.
  - rewrite !mapCommitsToJiras_keys, encounters_app, map_app.
    rewrite <- (Set_from_distinct (_ ++ _)). unfold Js.Set_from.
    rewrite fold_left_app, !fold_Set_add. simpl.
    now rewrite (filter_all _ (distinct (map fst (encounters a)))).
Qed.

(** The filter step only removes: every commit that the two steps put in the
    group of a code is in the group of that code in the mapping of the
    unfiltered commits. *)
Theorem extract_and_group_within_mapping (commits : list Commit) (h : Heap)
  (k : string) (c : Commit) :
  In c (group_of (fst (extract_and_group commits h)) k) ->
  In c (group_of (fst (mapCommitsToJiras commits h)) k).
Proof.
  rewrite group_of_mapCommitsToJiras. unfold group_of.
  rewrite extract_and_group_run, get_fold_record. simpl.
  intros Hc.
  assert (K : In c (commits_of k
                      (encounters
                         (fst (filter_from (RegExp.literal RegExp.jira_pattern)
                                 commits))))).
  { destruct (commits_of k _); [destruct Hc | exact Hc]. }
  rewrite In_commits_of, In_encounters in *.
  destruct K as (Hin & Hj). split; [|exact Hj].
  now apply (filter_from_sound commits (RegExp.literal RegExp.jira_pattern)).
Qed.

(** ** The Metadata Fetcher *)

(** An issue as the tracker sends it gives its summary, the name of its
    status, the names of its fix versions joined with ", " and the display
    name of its assignee. *)
Theorem fetchJiraMetadata_tracker_issue (c : string) (client : @Client Number)
  (summary status : string) (versions : list string)
  (assignee : option string) :
  findIssue client c
  = Resolves (tracker_issue summary status versions assignee) ->
  fetchJiraMetadata c client
  = Fulfilled
      (Some
         {| title := JString summary;
            status := JString status;
            fixVersions :=
              if String.eqb (Js.Array_join ", " versions) EmptyString
              then "No Fix Version"%string
              else Js.Array_join ", " versions;
            assignee :=
              match assignee with
              | Some displayName => JString displayName
              | None => JString "Unassigned"
              end |}).
Proof.
  intros E. unfold fetchJiraMetadata. rewrite E. simpl Promise_of.
  cbn [Promise_then]. rewrite read_issue_tracker_issue.
  cbn [Completion_bind Promise_catch]. now destruct versions.
Qed.

(** A response of another shape gives [null]: an issue without [fields], a
    [fields] without [status], or a [fixVersions] that is no array. *)
Theorem fetchJiraMetadata_malformed (c : string) (client : @Client Number)
  (issue : JsValue) :
  findIssue client c = Resolves issue ->
  (forall fields,
     Get issue "fields" = Normal fields ->
     fields = JUndefined \/ fields = JNull
     \/ Get fields "status" = Normal JUndefined
     \/ Get fields "status" = Normal JNull
     \/ exists v, Get fields "fixVersions" = Normal v
                  /\ forall l, v <> JArray l) ->
  fetchJiraMetadata c client = Fulfilled None.
Proof.
  intros E Hbad. unfold fetchJiraMetadata. rewrite E. simpl Promise_of.
  cbn [Promise_then].
  assert (R : exists e, read_issue issue = Throw e).
  { unfold read_issue, issue_field.
    destruct (Get issue "fields") as [fields|e] eqn:F; [|simpl; eauto].
    cbn [Completion_bind].
    destruct (Hbad fields eq_refl) as [-> | [-> | [K | [K | (v & K & Hv)]]]];
      try (simpl; eauto; fail).
    - destruct (Get fields "summary"); cbn [Completion_bind]; [|eauto].
      rewrite K. simpl. eauto.
    - destruct (Get fields "summary"); cbn [Completion_bind]; [|eauto].
      rewrite K. simpl. eauto.
    - destruct (Get fields "summary"); cbn [Completion_bind]; [|eauto].
      destruct (Get fields "status") as [st|]; cbn [Completion_bind]; [|eauto].
      destruct (Get st "name"); cbn [Completion_bind]; [|eauto].
      rewrite K. cbn [Completion_bind].
      destruct v; simpl; eauto. now destruct (Hv elements). }
  destruct R as [e ->]. reflexivity.
Qed.

(** What a lookup that gives metadata says about the response: [status] is
    the name of the status, [fixVersions] is read from an array and is never
    the empty string, and [assignee] is the display name of an assignee that
    is set. *)
Theorem fetchJiraMetadata_success (c : string) (client : @Client Number)
  (metadata : IssueMetadata) :
  fetchJiraMetadata c client = Fulfilled (Some metadata) ->
  exists issue,
    findIssue client c = Resolves issue
    /\ issue_field issue "summary" = Normal (title metadata)
    /\ (exists st, issue_field issue "status" = Normal st
                   /\ Get st "name" = Normal (status metadata))
    /\ (exists l, issue_field issue "fixVersions" = Normal (JArray l))
    /\ fixVersions metadata <> EmptyString
    /\ (forall a,
          issue_field issue "assignee" = Normal a -> ToBoolean a = true ->
          Get a "displayName" = Normal (assignee metadata)).
Proof.
  unfold fetchJiraMetadata.
  destruct (findIssue client c) as [issue|e]; simpl Promise_of;
    cbn [Promise_then Promise_catch]; [|discriminate].
  destruct (read_issue issue) as [md|e] eqn:Hr;
    cbn [Completion_bind Promise_catch]; [|discriminate].
  intros [= ->]. exists issue. split; [reflexivity|].
  unfold read_issue in Hr.
  destruct (issue_field issue "summary") as [t|]; [|discriminate].
  destruct (issue_field issue "status") as [st|]; [|discriminate].
  cbn [Completion_bind] in Hr.
  destruct (Get st "name") as [st'|] eqn:Hst; [|discriminate].
  destruct (issue_field issue "fixVersions") as [vs|]; [|discriminate].
  cbn [Completion_bind] in Hr.
  destruct (Call_map vs _) as [names|] eqn:Hn; [|discriminate].
  cbn [Completion_bind] in Hr.
  destruct (Array_join_values ", " names) as [joined|]; [|discriminate].
  destruct (issue_field issue "assignee") as [a|]; [|discriminate].
  cbn [Completion_bind] in Hr.
  assert (Hm : exists a',
             metadata = {| title := t; status := st';
                           fixVersions :=
                             if String.eqb joined EmptyString
                             then "No Fix Version"%string else joined;
                           assignee := a' |}
             /\ (ToBoolean a = true -> Get a "displayName" = Normal a')).
  { destruct (ToBoolean a); cbn [Completion_bind] in Hr.
    - destruct (Get a "displayName") as [d|]; [|discriminate].
      injection Hr as <-. eexists. split; reflexivity.
    - injection Hr as <-. eexists. split; [reflexivity | discriminate]. }
  destruct Hm as (a' & -> & Ha'). cbn [title status fixVersions assignee].
  split; [reflexivity|]. split; [eauto|]. split.
  - destruct vs; try discriminate Hn. eauto.
  - split.
    + destruct (String.eqb joined EmptyString) eqn:J; [discriminate|].
      now apply String.eqb_neq in J.
    + intros a0 [= <-]. exact Ha'.
Qed.

(** ** The Aggregator *)

Lemma sort_insert_stable (d : Z) (x : Commit) (l : list Commit) :
  filter (fun c => (date c =? d)%Z) (Js.sort_insert by_date_descending x l)
  = filter (fun c => (date c =? d)%Z) (x :: l).
Proof.
  induction l as [|y l IH]; [reflexivity|].
  cbn [Js.sort_insert]. unfold by_date_descending at 1.
  destruct (0 <? date y - date x)%Z eqn:E; [|reflexivity].
  apply Z.ltb_lt in E. cbn [filter] in *. rewrite IH.
  destruct (date x =? d)%Z eqn:Ex, (date y =? d)%Z eqn:Ey; try reflexivity.
  apply Z.eqb_eq in Ex, Ey. lia.
Qed.

(** [commitList.sort((a, b) => b.date - a.date)] rearranges the group with
    the latest commits first and keeps the order of the commits of one
    date. *)
Theorem sort_by_date_descending (group : list Commit) :
  Permutation (Js.Array_sort by_date_descending group) group
  /\ StronglySorted (fun a b => (date b <= date a)%Z)
       (Js.Array_sort by_date_descending group)
  /\ forall d,
       filter (fun c => (date c =? d)%Z) (Js.Array_sort by_date_descending group)
       = filter (fun c => (date c =? d)%Z) group.
Proof.
  split; [apply Permutation_Array_sort|]. split; [apply Array_sort_by_date|].
  intros d. induction group as [|x l IH]; [reflexivity|].
  cbn [Js.Array_sort]. rewrite sort_insert_stable. cbn [filter].
  now rewrite IH.
Qed.

Lemma push_jira_append (jiraMap : JiraMap) (c : string)
  (jira : option (@IssueMetadata Number)) (jiraList : list IssueRecord) :
  push_jira jiraMap c jira jiraList
  = match push_jira jiraMap c jira [] with
    | Normal l => Normal (jiraList ++ l)
    | Throw e => Throw e
    end.
Proof.
  unfold push_jira. destruct jira as [metadata|]; [|now rewrite app_nil_r].
  destruct (Js.Object_get jiraMap c) as [group|]; [|reflexivity].
  now destruct (Js.Array_sort by_date_descending group).
Qed.

Lemma sort_nil_iff {A} (cmp : A -> A -> Z) (l : list A) :
  Js.Array_sort cmp l = [] <-> l = [].
Proof.
  split; [|now intros ->]. intros E.
  pose proof (Permutation_Array_sort cmp l) as P. rewrite E in P.
  now apply Permutation_nil in P.
Qed.

(** The callback throws exactly for a code with metadata and an empty
    group. *)
Lemma push_jira_throws_iff (jiraMap : JiraMap) (c : string)
  (metadata : @IssueMetadata Number) :
  In c (Js.Object_keys jiraMap) ->
  (exists e, push_jira jiraMap c (Some metadata) [] = Throw e)
  <-> group_of jiraMap c = [].
Proof.
  intros Hc. destruct (In_keys_get _ _ Hc) as [group G].
  unfold push_jira, group_of. rewrite G.
  destruct (Js.Array_sort by_date_descending group) as [|first rest] eqn:S.
  - apply sort_nil_iff in S. subst. split; eauto.
  - split; [intros [e K]; discriminate K|]. intros ->. discriminate S.
Qed.

Lemma settle_all_fulfilled (jiraMap : JiraMap) (client : @Client Number)
  (order : list string) (jiraList : list IssueRecord) :
  (forall c, In c order -> In c (Js.Object_keys jiraMap)) ->
  (forall c, In c order -> fetched client c = true ->
             group_of jiraMap c <> []) ->
  settle_all jiraMap client order jiraList
  = Fulfilled (jiraList ++ flat_map (issue_record jiraMap client) order).
Proof.
  revert jiraList. induction order as [|c order IH]; intros acc Hin Hok.
  - simpl. now rewrite app_nil_r.
  - cbn [settle_all flat_map]. unfold issue_record at 1.
    assert (Hc : In c (Js.Object_keys jiraMap)) by (apply Hin; now left).
    specialize (Hok c (or_introl eq_refl)) as Hg. unfold fetched in Hg.
    destruct (fetch_settles c client) as [[metadata|] F]; rewrite F in *;
      cbn [Promise_then].
    + rewrite push_jira_append.
      destruct (push_jira jiraMap c (Some metadata) []) as [l|e] eqn:P.
      * rewrite IH.
        -- now rewrite <- app_assoc.
        -- intros c' Hc'. apply Hin. now right.
        -- intros c' Hc'. apply Hok. now right.
      * exfalso. apply Hg; [reflexivity|].
        apply (push_jira_throws_iff jiraMap c metadata Hc). eauto.
    + cbn [push_jira]. rewrite IH.
      * reflexivity.
      * intros c' Hc'. apply Hin. now right.
      * intros c' Hc'. apply Hok. now right.
Qed.

Lemma settle_all_rejected (jiraMap : JiraMap) (client : @Client Number)
  (order : list string) (jiraList : list IssueRecord) (c : string) :
  In c order -> In c (Js.Object_keys jiraMap) ->
  fetched client c = true -> group_of jiraMap c = [] ->
  exists e, settle_all jiraMap client order jiraList = Rejected e.
Proof.
  intros Hc Hk Hf Hg. revert jiraList.
  induction order as [|c0 order IH]; intros acc; [destruct Hc|].
  cbn [settle_all].
  destruct (Promise_then (fetchJiraMetadata c0 client) _) as [l|e|] eqn:P.
  - destruct Hc as [-> | Hc]; [|now apply IH].
    exfalso. unfold fetched in Hf.
    destruct (fetchJiraMetadata c client) as [[metadata|]| |];
      try discriminate Hf.
    cbn [Promise_then] in P. rewrite push_jira_append in P.
    apply (push_jira_throws_iff jiraMap c metadata Hk) in Hg as [e Hg].
    rewrite Hg in P. discriminate P.
  - eauto.
  - exfalso. destruct (fetch_settles c0 client) as [r F]. rewrite F in P.
    cbn [Promise_then] in P. now destruct (push_jira jiraMap c0 r acc).
Qed.

(** The promise of [aggregateJiraMetadata] is never rejected.  It stays
    pending exactly when a key whose lookup gave metadata has an empty
    group; otherwise it is fulfilled. *)
Theorem aggregate_pending_iff (jiraMap : JiraMap) (client : @Client Number) :
  (aggregateJiraMetadata jiraMap client = Pending
   <-> exists c, In c (Js.Object_keys jiraMap)
                 /\ fetched client c = true /\ group_of jiraMap c = [])
  /\ (aggregateJiraMetadata jiraMap client <> Pending ->
      exists jiraList, aggregateJiraMetadata jiraMap client = Fulfilled jiraList).
Proof.
  unfold aggregateJiraMetadata.
  set (order := settle_order client (Js.Object_keys jiraMap)).
  assert (Hin : forall c, In c order <-> In c (Js.Object_keys jiraMap)).
  { intros c. split; apply Permutation_in;
      [|apply Permutation_sym]; apply Permutation_Array_sort. }
  split; [split|].
  - intros P.
    destruct (existsb (fun c => fetched client c
                                && match group_of jiraMap c with
                                   | [] => true
                                   | _ => false
                                   end) order) eqn:E.
    + apply existsb_exists in E as (c & Hc & K).
      apply andb_true_iff in K as [Kf Kg]. exists c.
      repeat split; [now apply Hin | exact Kf|].
      now destruct (group_of jiraMap c).
    + rewrite settle_all_fulfilled in P; [discriminate P | apply Hin|].
      intros c Hc Hf Hg.
      assert (K : existsb (fun c => fetched client c
                                    && match group_of jiraMap c with
                                       | [] => true
                                       | _ => false
                                       end) order = true).
      { apply existsb_exists. exists c. now rewrite Hf, Hg. }
      congruence.
  - intros (c & Hc & Hf & Hg).
    destruct (settle_all_rejected jiraMap client order [] c) as [e ->];
      auto. now apply Hin.
  - destruct (settle_all jiraMap client order []); [eauto | tauto | tauto].
Qed.

(** When no lookup gives metadata the list is empty, whatever the groups
    are. *)
Theorem aggregate_all_lookups_fail (jiraMap : JiraMap)
  (client : @Client Number) :
  (forall c, In c (Js.Object_keys jiraMap) -> fetched client c = false) ->
  aggregateJiraMetadata jiraMap client = Fulfilled [].
Proof.
  intros Hf. unfold aggregateJiraMetadata.
  assert (Hin : forall c,
             In c (settle_order client (Js.Object_keys jiraMap)) ->
             In c (Js.Object_keys jiraMap)).
  { intros c. apply Permutation_in, Permutation_Array_sort. }
  rewrite settle_all_fulfilled; [|exact Hin|].
  - cbn [app]. f_equal.
    induction (settle_order client (Js.Object_keys jiraMap)) as [|c l IH];
      [reflexivity|].
    cbn [flat_map]. rewrite IH by (intros; apply Hin; now right).
    specialize (Hf c (Hin c (or_introl eq_refl))).
    unfold issue_record, fetched in *.
    now destruct (fetchJiraMetadata c client) as [[m|]| |].
  - intros c Hc K. rewrite (Hf c (Hin c Hc)) in K. discriminate K.
Qed.

Lemma CodeGroup_group_of (jiraMap : JiraMap) (c : string) :
  CodeGroup jiraMap -> In c (Js.Object_keys jiraMap) ->
  group_of jiraMap c <> [].
Proof.
  intros [_ Hne] Hc. destruct (In_keys_get _ _ Hc) as [group G].
  unfold group_of. rewrite G. apply Object_get_In in G.
  rewrite Forall_forall in Hne. exact (Hne _ G).
Qed.

Lemma aggregate_records (jiraMap : JiraMap) (client : @Client Number) :
  CodeGroup jiraMap ->
  aggregateJiraMetadata jiraMap client
  = Fulfilled
      (flat_map (issue_record jiraMap client)
         (settle_order client (Js.Object_keys jiraMap))).
Proof.
  intros G. unfold aggregateJiraMetadata.
  assert (Hin : forall c,
             In c (settle_order client (Js.Object_keys jiraMap)) ->
             In c (Js.Object_keys jiraMap)).
  { intros c. apply Permutation_in, Permutation_Array_sort. }
  rewrite settle_all_fulfilled; [reflexivity | exact Hin|].
  intros c Hc _. apply CodeGroup_group_of; auto.
Qed.

Lemma In_issue_record (jiraMap : JiraMap) (client : @Client Number)
  (c : string) (r : IssueRecord) :
  In r (issue_record jiraMap client c) ->
  code r = c
  /\ exists first rest,
       Js.Array_sort by_date_descending (group_of jiraMap c) = first :: rest
       /\ lastCommitDate r = date first
       /\ developers r
          = Js.Array_join ", " (distinct (map author (first :: rest)))
       /\ commits r = S (List.length rest).
Proof.
  unfold issue_record, push_jira, group_of.
  destruct (fetchJiraMetadata c client) as [[metadata|]| |]; try (simpl; tauto).
  destruct (Js.Object_get jiraMap c) as [group|]; [|simpl; tauto].
  destruct (Js.Array_sort by_date_descending group) as [|first rest];
    [simpl; tauto|].
  intros [<- | []]. cbn [code lastCommitDate developers commits].
  split; [reflexivity|]. exists first, rest.
  rewrite Set_from_distinct. repeat split.
Qed.

(** The developers of a record are the distinct authors of its group in the
    order in which they first occur once the group is sorted, the latest
    commit first; the date of the record is the date of the first commit of
    the sorted group. *)
Theorem aggregate_developers_latest_first (jiraMap : JiraMap)
  (client : @Client Number) (jiraList : list IssueRecord) (r : IssueRecord) :
  CodeGroup jiraMap ->
  aggregateJiraMetadata jiraMap client = Fulfilled jiraList ->
  In r jiraList ->
  exists first rest,
    Js.Array_sort by_date_descending (group_of jiraMap (code r)) = first :: rest
    /\ lastCommitDate r = date first
    /\ developers r
       = Js.Array_join ", " (distinct (map author (first :: rest))).
Proof.
  intros G E Hr. rewrite (aggregate_records _ _ G) in E. injection E as <-.
  apply in_flat_map in Hr as (c & _ & Hr).
  apply In_issue_record in Hr as (-> & first & rest & S & D & A & _).
  eauto.
Qed.

(** No two records of the list share a code. *)
Theorem aggregate_codes_distinct (jiraMap : JiraMap) (client : @Client Number)
  (jiraList : list IssueRecord) :
  CodeGroup jiraMap ->
  aggregateJiraMetadata jiraMap client = Fulfilled jiraList ->
  NoDup (map code jiraList).
Proof.
  intros G E. destruct (aggregate_spec jiraMap client G) as (l & E' & K & _).
  rewrite E in E'. injection E' as <-. rewrite K.
  apply NoDup_filter.
  apply (Permutation_NoDup
           (Permutation_sym (Permutation_Array_sort _ (Js.Object_keys jiraMap)))).
  apply G.
Qed.

Lemma issue_record_same_lookups (jiraMap : JiraMap)
  (client client' : @Client Number) (c : string) :
  findIssue client c = findIssue client' c ->
  issue_record jiraMap client c = issue_record jiraMap client' c.
Proof.
  intros E. unfold issue_record, fetchJiraMetadata. now rewrite E.
Qed.

(** The times at which the responses arrive only rearrange the list: two
    clients that answer every lookup alike give the same records. *)
Theorem aggregate_arrival_rearranges (jiraMap : JiraMap)
  (client client' : @Client Number) :
  CodeGroup jiraMap ->
  (forall c, findIssue client c = findIssue client' c) ->
  exists jiraList jiraList',
    aggregateJiraMetadata jiraMap client = Fulfilled jiraList
    /\ aggregateJiraMetadata jiraMap client' = Fulfilled jiraList'
    /\ Permutation jiraList jiraList'.
Proof.
  intros G E. rewrite !aggregate_records by exact G.
  do 2 eexists. split; [reflexivity|]. split; [reflexivity|].
  rewrite (flat_map_ext _ (issue_record jiraMap client'))
    by (intros c; apply issue_record_same_lookups, E).
  apply Permutation_flat_map.
  transitivity (Js.Object_keys jiraMap);
    [|apply Permutation_sym]; apply Permutation_Array_sort.
Qed.

(** ** The table *)

Lemma fold_Table_push {A} (f : A -> list Cell) (l : list A)
  (table : @Table Number) :
  fold_left (fun table x => Table_push table (f x)) l table
  = {| head := head table; colWidths := colWidths table;
       rows := rows table ++ map f l |}.
Proof.
  revert table; induction l as [|x l IH]; intros table; simpl.
  - rewrite app_nil_r. now destruct table.
  - rewrite IH. simpl. now rewrite <- app_assoc.
Qed.

Lemma generateJiraTermTable_run (jiraList : list (@IssueRecord Number))
  (w : World) :
  exists table,
    generateJiraTermTable (Some jiraList) w
    = (Normal tt,
       {| regexps := regexps w; stdout := stdout w ++ [TableText table] |})
    /\ map (@hd_error Cell) (rows table)
       = map (fun li => Some (Text (code li))) jiraList
    /\ List.length (colWidths table) = List.length (head table)
    /\ Forall (fun row => List.length row = List.length (head table))
         (rows table).
Proof.
  unfold generateJiraTermTable. rewrite fold_Table_push.
  eexists. split; [reflexivity|]. cbn [rows head colWidths app].
  split; [now rewrite map_map|]. split; [reflexivity|].
  apply Forall_map, Forall_forall. reflexivity.
Qed.


(** ** Splitting the URL and the credentials *)

Local Open Scope string_scope.

Lemma prefix_append (a b : string) : String.prefix a (a ++ b) = true.
Proof.
  induction a as [|x a IH]; simpl; [now destruct b|].
  destruct (ascii_dec x x); [exact IH | congruence].
Qed.

Lemma prefix_true (a s : string) :
  String.prefix a s = true -> exists post, s = a ++ post.
Proof.
  revert s; induction a as [|x a IH]; intros s; [now exists s|].
  destruct s as [|y s]; simpl; [discriminate|].
  destruct (ascii_dec x y) as [<-|]; [|discriminate].
  intros H1. destruct (IH _ H1) as [post ->]. now exists post.
Qed.

Lemma split_from_skip (sep mid b cur : string) :
  split_from sep (mid ++ b) (String.length mid) cur = split_from sep b 0 cur.
Proof.
  induction mid as [|x mid IH]; simpl; [now destruct b | exact IH].
Qed.

(** The piece before the first separator, when the piece does not hold the
    first code unit of the separator. *)
Lemma split_from_piece (c0 : ascii) (sep' a b cur : string) :
  free_of c0 a ->
  split_from (String c0 sep') (a ++ String c0 sep' ++ b) 0 cur
  = (cur ++ a) :: split_from (String c0 sep') b 0 EmptyString.
Proof.
  unfold free_of. revert cur; induction a as [|x a IH]; intros cur Ha.
  - cbn [append split_from].
    change (String c0 (sep' ++ b)) with (String c0 sep' ++ b).
    rewrite prefix_append, append_empty_r. f_equal.
    cbn [String.length Nat.sub]. rewrite Nat.sub_0_r. apply split_from_skip.
  - cbn [JsString.all] in Ha. apply andb_true_iff in Ha as [Hx Ha].
    cbn [append split_from String.prefix].
    destruct (ascii_dec c0 x) as [->|_].
    + now rewrite Ascii.eqb_refl in Hx.
    + rewrite IH by exact Ha. now rewrite append_assoc.
Qed.

(** A text without the separator is one piece. *)
Lemma split_from_without (sep s cur : string) :
  without sep s -> split_from sep s 0 cur = [cur ++ s].
Proof.
  revert cur; induction s as [|x s IH]; intros cur Hs.
  - simpl. now rewrite append_empty_r.
  - cbn [split_from].
    destruct (String.prefix sep (String x s)) eqn:P.
    + apply prefix_true in P as [post P].
      now destruct (Hs EmptyString post).
    + rewrite IH; [now rewrite append_assoc|].
      intros pre post E. apply (Hs (String x pre) post). simpl. now rewrite E.
Qed.

Lemma free_of_without (c0 : ascii) (sep' s : string) :
  free_of c0 s -> without (String c0 sep') s.
Proof.
  unfold free_of. intros Hs pre post ->.
  rewrite all_append in Hs. apply andb_true_iff in Hs as [_ Hs].
  simpl in Hs. now rewrite Ascii.eqb_refl in Hs.
Qed.

Lemma without_occurs (sep s : string) : occurs sep s = false -> without sep s.
Proof.
  intros Ho pre. revert s Ho. induction pre as [|x pre IH]; intros s Ho post ->.
  - assert (K : occurs sep (sep ++ post) = true).
    { destruct (sep ++ post) eqn:E; cbn [occurs];
        rewrite <- E, prefix_append; reflexivity. }
    simpl in Ho. congruence.
  - simpl in Ho. apply orb_false_iff in Ho as [_ Ho].
    now apply (IH _ Ho post).
Qed.

(** For a URL [protocol://host], the client is built with the two pieces
    around the separator; the user name and the password are passed on as
    they are. *)
Theorem initialiseJiraApi_url (scheme rest : string)
  (username password : option string) :
  free_of ":" scheme -> without "://" rest ->
  initialiseJiraApi env (scheme ++ "://" ++ rest) username password
  = JiraApi env
      {| protocol := Some scheme;
         apiVersion := "2";
         strictSSL := true;
         host := Some rest;
         username := username;
         password := password |}.
Proof.
  intros Hs Hr. unfold initialiseJiraApi, String_split.
  rewrite split_from_piece by exact Hs.
  rewrite split_from_without by exact Hr. reflexivity.
Qed.

(** For a URL without [://], the whole URL is taken for the protocol and the
    host is [undefined]. *)
Theorem initialiseJiraApi_no_separator (address : string)
  (username password : option string) :
  without "://" address ->
  initialiseJiraApi env address username password
  = JiraApi env
      {| protocol := Some address;
         apiVersion := "2";
         strictSSL := true;
         host := None;
         username := username;
         password := password |}.
Proof.
  intros Hu. unfold initialiseJiraApi, String_split.
  rewrite split_from_without by exact Hu. reflexivity.
Qed.

(** Of the credentials, [listJira] uses the pieces before the first and
    before the second colon: what follows a second colon is ignored. *)
Theorem listJira_auth_third_piece_ignored
  (address user token rest hash : string) (w : @World Number) :
  free_of ":" user -> free_of ":" token ->
  listJira env
    {| url := address; auth := user ++ ":" ++ token ++ ":" ++ rest;
       commit := hash |} w
  = listJira env
      {| url := address; auth := user ++ ":" ++ token; commit := hash |} w.
Proof.
  intros Hu Ht. unfold listJira. cbn [auth url commit].
  unfold String_split.
  rewrite !(split_from_piece ":" EmptyString user) by exact Hu.
  rewrite (split_from_piece ":" EmptyString token) by exact Ht.
  rewrite (split_from_without ":" token)
    by (apply free_of_without; exact Ht).
  reflexivity.
Qed.

Local Open Scope list_scope.

(** ** The walk and the pipeline *)


Lemma extract_and_group_CodeGroup (commits : list Commit) (h : Heap) :
  CodeGroup (fst (extract_and_group commits h)).
Proof. rewrite extract_and_group_run. apply CodeGroup_fold_record. Qed.

Lemma IO_then_lift {A B} (a : A) (c : A -> M B) (w : @World Number) :
  IO_then (Fulfilled a)
    (fun x => IO_bind (lift (c x)) (fun y => IO_ret (Normal y))) w
  = (Fulfilled (fst (c a (regexps w))),
     {| regexps := snd (c a (regexps w)); stdout := stdout w |}).
Proof.
  unfold IO_then, IO_bind, lift, IO_ret. now destruct (c a (regexps w)).
Qed.

Lemma listJira_success (args : Args) (w : @World Number)
  (commits : list Commit) :
  getCommitsUntil env (commit args) "." = Fulfilled commits ->
  exists jiraList table w',
    aggregateJiraMetadata (fst (extract_and_group commits (regexps w)))
      (initialiseJiraApi env (url args)
         (nth_error (String_split (auth args) ":") 0)
         (nth_error (String_split (auth args) ":") 1))
    = Fulfilled jiraList
    /\ listJira env args w = (Fulfilled tt, w')
    /\ stdout w' = stdout w ++ [TableText table]
    /\ map (@hd_error Cell) (rows table)
       = map (fun li => Some (Text (code li))) jiraList.
Proof.
  intros E.
  set (client := initialiseJiraApi env (url args) _ _).
  pose proof (extract_and_group_CodeGroup commits (regexps w)) as G.
  pose proof (aggregate_records _ client G) as A.
  rewrite extract_and_group_run in A |- *.
  unfold listJira. fold client. rewrite E.
  unfold IO_bind at 1. rewrite IO_then_lift.
  unfold IO_bind at 1. rewrite IO_then_lift. cbn [regexps stdout].
  rewrite filterMissingJiras_run. cbn [fst snd].
  rewrite mapCommitsToJiras_run. cbn [fst snd].
  unfold IO_bind at 1. unfold IO_ret at 1.
  cbn [Promise_then_promise]. rewrite A. cbn [Promise_then].
  unfold IO_bind at 1. unfold IO_catch at 1. unfold IO_ret at 1.
  unfold IO_then, IO_bind.
  match goal with
  | |- context [generateJiraTermTable (Some ?l) ?w0] =>
      destruct (generateJiraTermTable_run l w0) as (table & T & R & _)
  end.
  rewrite T. unfold IO_ret.
  eexists _, table, _. split; [reflexivity|]. split; [reflexivity|].
  cbn [stdout]. split; [reflexivity | exact R].
Qed.



(** When no commit of the walk holds a code, the table has no row. *)
Theorem listJira_no_code_empty_table (args : Args) (w : @World Number)
  (commits : list Commit) :
  getCommitsUntil env (commit args) "." = Fulfilled commits ->
  (forall c, In c commits -> ~ contains_code (summary c)) ->
  exists table w',
    listJira env args w = (Fulfilled tt, w')
    /\ stdout w' = stdout w ++ [TableText table]
    /\ rows table = [].
Proof.
  intros E Hno.
  destruct (listJira_success args w commits E)
    as (l & table & w' & A & L & S & R).
  exists table, w'. split; [exact L|]. split; [exact S|].
  assert (K : fst (extract_and_group commits (regexps w)) = []).
  { rewrite extract_and_group_run.
    destruct (fst (filter_from (RegExp.literal RegExp.jira_pattern) commits))
      as [|c kept] eqn:F; [reflexivity|].
    destruct (filter_from_sound commits (RegExp.literal RegExp.jira_pattern) c
                eq_refl) as [Hc Hcode].
    - rewrite F. now left.
    - now destruct (Hno c Hc). }
  rewrite K in A. injection A as <-.
  destruct (rows table); [reflexivity | discriminate R].
Qed.

End Properties.

(** * The properties on the sample data *)

Local Open Scope string_scope.

Lemma CodeGroup_sample_map : CodeGroup sample_map.
Proof.
  split.
  - repeat constructor; simpl; intuition discriminate.
  - repeat constructor; discriminate.
Qed.

Lemma aggregate_record_statistics_witness :
  CodeGroup sample_map
  /\ exists jiraList,
       aggregateJiraMetadata sample_map (sample_client "DEF-2") = Fulfilled jiraList
       /\ forall r, In r jiraList ->
            exists group,
              Js.Object_get sample_map (code r) = Some group
              /\ fetchJiraMetadata (code r) (sample_client "DEF-2")
                 = Fulfilled (Some (jira r))
              /\ commits r = List.length group
              /\ max_date (lastCommitDate r) group
              /\ exists names,
                   developers r = Js.Array_join ", " names
                   /\ NoDup names
                   /\ forall a, In a names <-> In a (map author group).
Proof.
  split; [exact CodeGroup_sample_map|].
  apply (aggregate_record_statistics sample_map (sample_client "DEF-2")).
  exact CodeGroup_sample_map.
Defined.

Lemma aggregate_omits_failed_lookups_witness :
  CodeGroup sample_map
  /\ exists jiraList,
       aggregateJiraMetadata sample_map (sample_client "DEF-2") = Fulfilled jiraList
       /\ (forall c, fetchJiraMetadata c (sample_client "DEF-2") = Fulfilled None ->
                     ~ In c (map code jiraList))
       /\ List.length jiraList
          = List.length
              (filter (fetched (sample_client "DEF-2")) (Js.Object_keys sample_map)).
Proof.
  split; [exact CodeGroup_sample_map|].
  apply (aggregate_omits_failed_lookups sample_map (sample_client "DEF-2")).
  exact CodeGroup_sample_map.
Defined.

(** C6 as stated fails: when the response for the first key arrives last,
    its record comes last. *)
Lemma aggregate_key_order_counterexample :
  ~ (forall (jiraMap : JiraMap) (client : @Client Z) jiraList,
       CodeGroup jiraMap ->
       aggregateJiraMetadata jiraMap client = Fulfilled jiraList ->
       map code jiraList = filter (fetched client) (Js.Object_keys jiraMap)).
Proof.
  intros K.
  specialize (K sample_map (generous_client "ABC-1") _
                CodeGroup_sample_map eq_refl).
  vm_compute in K. discriminate K.
Qed.

Lemma aggregate_in_settling_order_witness :
  CodeGroup sample_map
  /\ exists jiraList,
       aggregateJiraMetadata sample_map (generous_client "ABC-1")
       = Fulfilled jiraList
       /\ map code jiraList
          = filter (fetched (generous_client "ABC-1"))
              (settle_order (generous_client "ABC-1")
                 (Js.Object_keys sample_map))
       /\ Permutation
            (settle_order (generous_client "ABC-1") (Js.Object_keys sample_map))
            (Js.Object_keys sample_map)
       /\ (settles_in_request_order (generous_client "ABC-1")
             (Js.Object_keys sample_map) ->
           map code jiraList
           = filter (fetched (generous_client "ABC-1"))
               (Js.Object_keys sample_map)).
Proof.
  split; [exact CodeGroup_sample_map|].
  apply (aggregate_in_settling_order sample_map (generous_client "ABC-1")).
  exact CodeGroup_sample_map.
Defined.

Lemma fetchJiraMetadata_contract_witness :
  fetchJiraMetadata "DEF-2" (sample_client "DEF-2") = Fulfilled None
  /\ fetchJiraMetadata "ABC-1" (sample_client "DEF-2")
     = Fulfilled
         (Some {| title := JString "T1"; status := JString "Open";
                  fixVersions := "No Fix Version";
                  assignee := JString "Unassigned" |}).
Proof.
  split.
  - destruct (fetchJiraMetadata_contract "DEF-2" (sample_client "DEF-2"))
      as (_ & Rejection & _).
    apply (Rejection not_found). reflexivity.
  - destruct (fetchJiraMetadata_contract "ABC-1" (sample_client "DEF-2"))
      as (_ & _ & _ & Success).
    apply (Success issue_T1); reflexivity.
Defined.

Lemma listJira_traversal_failure_witness :
  getCommitsUntil no_repository (commit sample_args) "."
  = Rejected {| name := "Error";
                message := "could not find repository from '.'" |}
  /\ listJira no_repository sample_args {| regexps := []; stdout := [] |}
     = (Rejected
          (TypeError "Cannot read properties of undefined, reading forEach"),
        {| regexps := [];
           stdout := [Line "could not find repository from '.'"] |}).
Proof.
  split; [reflexivity|].
  exact (listJira_traversal_failure no_repository sample_args
           {| regexps := []; stdout := [] |}
           {| name := "Error";
              message := "could not find repository from '.'" |}
           eq_refl).
Defined.

(** The scenario end to end: one record, for the issue that was found; the
    authors are read from the group after it has been sorted in place, the
    latest commit first. *)
Example scenario_two_commits :
  fst (extract_and_group [monday_fix; tuesday_rework] []) = sample_map
  /\ aggregateJiraMetadata sample_map (sample_client "DEF-2")
     = Fulfilled
         [{| code := "ABC-1";
             lastCommitDate := 2;
             developers := "B, A";
             commits := 2;
             jira := {| title := JString "T1"; status := JString "Open";
                        fixVersions := "No Fix Version";
                        assignee := JString "Unassigned" |} |}].
Proof. split; reflexivity. Qed.

(** Outside the CodeGroup mappings: with an empty group and a lookup that
    succeeds, the callback throws, [Promise.all] is rejected and the promise
    of the aggregation is never resolved. *)
Example aggregate_empty_group_pending :
  aggregateJiraMetadata [("ABC-1", [])] (sample_client "DEF-2") = Pending.
Proof. reflexivity. Qed.

(** A run of [listJira] that finds commits prints one table. *)
Example listJira_prints_table :
  let env :=
    {| JiraApi := fun _ => sample_client "DEF-2";
       revwalk := fun _ _ => Resolves [tuesday_rework; monday_fix] |} in
  exists table,
    stdout (snd (listJira env sample_args {| regexps := []; stdout := [] |}))
    = [TableText table]
    /\ List.length (rows table) = 1.
Proof. eexists. split; reflexivity. Qed.

(** ** The further properties on the sample data *)

Lemma filterMissingJiras_keeps_one_of_two_witness :
  In first_commit (fst (filterMissingJiras [first_commit; second_commit] []))
  \/ In second_commit
       (fst (filterMissingJiras [first_commit; second_commit] [])).
Proof.
  apply (filterMissingJiras_keeps_one_of_two [] [] first_commit second_commit []);
    apply has_code_iff; reflexivity.
Defined.

Lemma jiras_occur_in_summary_witness :
  code_text "DEF-2"
  /\ exists pre post, summary tuesday_rework = (pre ++ "DEF-2" ++ post)%string.
Proof.
  apply (jiras_occur_in_summary tuesday_rework "DEF-2").
  vm_compute. right. left. reflexivity.
Defined.

Lemma mapCommitsToJiras_groups_commits_with_code_witness :
  contains_code (summary monday_fix)
  <-> exists k,
        In monday_fix
          (group_of (fst (mapCommitsToJiras [monday_fix; tuesday_rework] [])) k).
Proof.
  apply (mapCommitsToJiras_groups_commits_with_code
           [monday_fix; tuesday_rework] [] monday_fix).
  simpl. left. reflexivity.
Defined.

Lemma mapCommitsToJiras_keys_upper_case_witness :
  code_text "ABC-1" /\ JsString.toUpperCase "ABC-1" = "ABC-1".
Proof.
  apply (mapCommitsToJiras_keys_upper_case [monday_fix; tuesday_rework] []).
  vm_compute. left. reflexivity.
Defined.

Lemma extract_and_group_within_mapping_witness :
  In monday_fix
    (group_of (fst (mapCommitsToJiras [monday_fix; tuesday_rework] [])) "ABC-1").
Proof.
  apply (extract_and_group_within_mapping [monday_fix; tuesday_rework] []).
  vm_compute. left. reflexivity.
Defined.

Lemma fetchJiraMetadata_tracker_issue_witness :
  fetchJiraMetadata "ABC-1" assigned_client
  = Fulfilled
      (Some {| title := JString "T2"; status := JString "Done";
               fixVersions := "1.0, 1.1"; assignee := JString "Ann" |}).
Proof.
  apply (fetchJiraMetadata_tracker_issue "ABC-1" assigned_client
           "T2" "Done" ["1.0"; "1.1"] (Some "Ann")).
  reflexivity.
Defined.

Lemma fetchJiraMetadata_malformed_witness :
  fetchJiraMetadata "ABC-1" bare_client = Fulfilled None.
Proof.
  apply (fetchJiraMetadata_malformed "ABC-1" bare_client bare_issue).
  - reflexivity.
  - intros fields E. vm_compute in E. injection E as <-. left. reflexivity.
Defined.

Lemma fetchJiraMetadata_success_witness :
  exists issue,
    findIssue (sample_client "DEF-2") "ABC-1" = Resolves issue
    /\ issue_field issue "summary" = Normal (JString "T1")
    /\ (exists st, issue_field issue "status" = Normal st
                   /\ Get st "name" = Normal (JString "Open"))
    /\ (exists l, issue_field issue "fixVersions" = Normal (JArray l))
    /\ "No Fix Version" <> EmptyString
    /\ (forall a,
          issue_field issue "assignee" = Normal a -> ToBoolean a = true ->
          Get a "displayName" = Normal (JString "Unassigned")).
Proof.
  apply (fetchJiraMetadata_success "ABC-1" (sample_client "DEF-2")
           {| title := JString "T1"; status := JString "Open";
              fixVersions := "No Fix Version";
              assignee := JString "Unassigned" |}).
  reflexivity.
Defined.

Lemma aggregate_all_lookups_fail_witness :
  aggregateJiraMetadata [("DEF-2", [tuesday_rework])] (sample_client "DEF-2")
  = Fulfilled [].
Proof.
  apply (aggregate_all_lookups_fail
           [("DEF-2", [tuesday_rework])] (sample_client "DEF-2")).
  intros c [<- | []]. reflexivity.
Defined.

Lemma aggregate_developers_latest_first_witness :
  exists first rest,
    Js.Array_sort by_date_descending (group_of sample_map "ABC-1")
    = first :: rest
    /\ 2%Z = date first
    /\ "B, A" = Js.Array_join ", " (distinct (map author (first :: rest))).
Proof.
  apply (aggregate_developers_latest_first sample_map (sample_client "DEF-2")
           [{| code := "ABC-1"; lastCommitDate := 2; developers := "B, A";
               commits := 2;
               jira := {| title := JString "T1"; status := JString "Open";
                          fixVersions := "No Fix Version";
                          assignee := JString "Unassigned" |} |}]
           {| code := "ABC-1"; lastCommitDate := 2; developers := "B, A";
              commits := 2;
              jira := {| title := JString "T1"; status := JString "Open";
                         fixVersions := "No Fix Version";
                         assignee := JString "Unassigned" |} |}).
  - exact CodeGroup_sample_map.
  - reflexivity.
  - left. reflexivity.
Defined.

Lemma aggregate_codes_distinct_witness : NoDup ["DEF-2"; "ABC-1"]%string.
Proof.
  apply (aggregate_codes_distinct sample_map (generous_client "ABC-1")
           (flat_map (issue_record sample_map (generous_client "ABC-1"))
              ["DEF-2"; "ABC-1"])).
  - exact CodeGroup_sample_map.
  - reflexivity.
Defined.

Lemma aggregate_arrival_rearranges_witness :
  exists jiraList jiraList',
    aggregateJiraMetadata sample_map (generous_client "ABC-1")
    = Fulfilled jiraList
    /\ aggregateJiraMetadata sample_map (generous_client "DEF-2")
       = Fulfilled jiraList'
    /\ Permutation jiraList jiraList'.
Proof.
  apply (aggregate_arrival_rearranges sample_map
           (generous_client "ABC-1") (generous_client "DEF-2")).
  - exact CodeGroup_sample_map.
  - reflexivity.
Defined.


Lemma listJira_no_code_empty_table_witness :
  exists table w',
    listJira codeless_repository sample_args empty_world = (Fulfilled tt, w')
    /\ stdout w' = [TableText table]
    /\ rows table = [].
Proof.
  apply (listJira_no_code_empty_table codeless_repository sample_args
           empty_world [merge_commit]).
  - reflexivity.
  - intros c [<- | []] K. apply has_code_iff in K. discriminate K.
Defined.

Lemma initialiseJiraApi_url_witness :
  initialiseJiraApi sample_repository "https://jira.example.org:8443"
    (Some "user") (Some "token")
  = JiraApi sample_repository
      {| protocol := Some "https";
         apiVersion := "2";
         strictSSL := true;
         host := Some "jira.example.org:8443";
         username := Some "user";
         password := Some "token" |}.
Proof.
  apply (initialiseJiraApi_url sample_repository
           "https" "jira.example.org:8443").
  - reflexivity.
  - apply without_occurs. reflexivity.
Defined.

Lemma initialiseJiraApi_no_separator_witness :
  initialiseJiraApi sample_repository "jira.example.org"
    (Some "user") (Some "token")
  = JiraApi sample_repository
      {| protocol := Some "jira.example.org";
         apiVersion := "2";
         strictSSL := true;
         host := None;
         username := Some "user";
         password := Some "token" |}.
Proof.
  apply (initialiseJiraApi_no_separator sample_repository "jira.example.org").
  apply without_occurs. reflexivity.
Defined.

Lemma listJira_auth_third_piece_ignored_witness :
  listJira sample_repository
    {| url := "https://jira.example.org"; auth := "user:to:ken";
       commit := "0123abc" |} empty_world
  = listJira sample_repository
      {| url := "https://jira.example.org"; auth := "user:to";
         commit := "0123abc" |} empty_world.
Proof.
  apply (listJira_auth_third_piece_ignored sample_repository
           "https://jira.example.org" "user" "to" "ken" "0123abc" empty_world);
    reflexivity.
Defined.
